(** * RepoPac: a shallow embedding of [main.cpp]

    RepoPac walks a directory (or a list of files) and writes one Markdown
    report to standard output.  This development embeds the program
    function by function and settles the statements of its specification.

    Platform conventions.  The embedding follows the POSIX behaviour of
    [std::filesystem] and of the iostreams library:
    - a [fs::path] keeps the string it was built from; the directory
      separator is [/]; [path::generic_string] rebuilds the path from its
      elements, so that a run of separators is written as one;
    - [fs::absolute p] is [current_path() / p] for a relative [p];
    - a stream opened without [std::ios::binary] performs no translation;
    - [char] strings are sequences of 8-bit characters, here [string].

    Scope.  The file system is a finite tree that does not change during
    a run: a symbolic link carries the object it resolves to.  Status
    queries and directory enumeration do not fail otherwise than by
    reporting a missing object or no entries: an object whose status
    cannot be queried (a cycle of links, a [.git] that cannot be
    reached), on which the calls without [error_code] of [is_git_repo]
    and of the two walks throw and end the run abnormally, is not
    represented. *)

From Stdlib Require Import List String Ascii Bool Arith NArith Lia.
From Stdlib Require Import Permutation Sorted DecimalString.
Import ListNotations.
Local Open Scope list_scope.
Local Open Scope string_scope.

Set Warnings "-register-all".

(** ** Characters and literals *)

Definition nl : string := String "010"%char EmptyString.
Definition tab : string := String "009"%char EmptyString.
Definition fence : string := "```".

(** ** Paths *)

Module Path.

Definition path := string.

Definition separator : ascii := "/"%char.

Definition is_absolute (p : path) : bool :=
  match p with
  | String c _ => Ascii.eqb c separator
  | EmptyString => false
  end.

Fixpoint ends_with_separator (p : path) : bool :=
  match p with
  | EmptyString => false
  | String c EmptyString => Ascii.eqb c separator
  | String _ r => ends_with_separator r
  end.

(** [path::has_filename]: the last component is not empty. *)
Definition has_filename (p : path) : bool :=
  match p with
  | EmptyString => false
  | _ => negb (ends_with_separator p)
  end.

(** [operator/]: an absolute right operand replaces the left one;
    otherwise a separator is added when the left operand has a
    filename, and the right operand is appended. *)
Definition append (a b : path) : path :=
  if is_absolute b then b
  else if has_filename a then a ++ String separator b
  else a ++ b.

(** [path::filename]: what follows the last separator. *)
Fixpoint filename_from (cur p : string) : string :=
  match p with
  | EmptyString => cur
  | String c r =>
      if Ascii.eqb c separator then filename_from r r
      else filename_from cur r
  end.

Definition filename (p : path) : string := filename_from p p.

Fixpoint last_dot_from (cur : option string) (f : string) : option string :=
  match f with
  | EmptyString => cur
  | String c r =>
      if Ascii.eqb c "."%char then last_dot_from (Some f) r
      else last_dot_from cur r
  end.

(** [path::extension]: the suffix of the filename that starts at its
    last period; empty for the filenames [.] and [..], and a period in
    first position does not start an extension. *)
Definition extension (p : path) : string :=
  let f := filename p in
  if (f =? ".") || (f =? "..") then EmptyString
  else match f with
       | EmptyString => EmptyString
       | String _ r =>
           match last_dot_from None r with
           | Some e => e
           | None => EmptyString
           end
       end.

(** [fs::absolute], for a non-empty path: [p] itself when it is
    absolute, else [current_path() / p] (C++ standard, [fs.op.absolute]);
    no component is resolved or removed, unlike in [fs::canonical]. *)
Definition absolute (cwd p : path) : path :=
  if is_absolute p then p else append cwd p.

(** [path::generic_string]: the path rebuilt from its elements with one
    separator between two of them, so that a separator followed by
    another one is left out; nothing else is changed. *)
Fixpoint generic_string (p : path) : string :=
  match p with
  | EmptyString => EmptyString
  | String c r =>
      if Ascii.eqb c separator && is_absolute r then generic_string r
      else String c (generic_string r)
  end.

(** The components of a path, split at separators. *)
Fixpoint components_from (cur : string) (p : string) : list string :=
  match p with
  | EmptyString => [cur]
  | String c r =>
      if Ascii.eqb c separator then cur :: components_from EmptyString r
      else components_from (cur ++ String c EmptyString) r
  end.

Definition components (p : path) : list string :=
  components_from EmptyString p.

End Path.

Import Path.

(** ** The file system

    A file-system object as the program can observe it.  A regular file
    has its bytes and may refuse to be opened; a directory has its
    entries, in the order [fs::directory_iterator] happens to enumerate
    them (unspecified); a symbolic link has the object it resolves to, or
    dangles; anything else (device, socket, FIFO) is [Special].  A
    directory that cannot be listed shows no entries. *)

Inductive node : Type :=
| Regular (readable : bool) (content : string)
| Directory (entries : list (string * node))
| Symlink (target : node)
| Dangling
| Special.

Definition entry : Type := (string * node)%type.

(** [fs::file_type], as far as the program distinguishes. *)
Inductive file_type : Type := not_found | regular | directory | other.

(** [fs::status]: follows symbolic links. *)
Fixpoint status (n : node) : file_type :=
  match n with
  | Regular _ _ => regular
  | Directory _ => directory
  | Symlink t => status t
  | Dangling => not_found
  | Special => other
  end.

(** What [fs::directory_iterator] enumerates at a path that names [n]. *)
Fixpoint readdir (n : node) : list entry :=
  match n with
  | Directory es => es
  | Symlink t => readdir t
  | _ => []
  end.

Definition uintmax_max : N := 18446744073709551615%N.

(** [fs::file_size(p, ec)]: the size of a regular file,
    [static_cast<uintmax_t>(-1)] on error. *)
Fixpoint file_size (n : node) : N :=
  match n with
  | Regular _ c => N.of_nat (String.length c)
  | Symlink t => file_size t
  | _ => uintmax_max
  end.

(** [std::ifstream ifs(p)]: the bytes behind the stream, or [None] when
    the stream is in a failed state after construction. *)
Fixpoint open_read (n : node) : option string :=
  match n with
  | Regular true c => Some c
  | Symlink t => open_read t
  | _ => None
  end.

(** A path given on the command line names an object or nothing. *)
Definition path_status (o : option node) : file_type :=
  match o with
  | Some n => status n
  | None => not_found
  end.

Definition is_directory_type (t : file_type) : bool :=
  match t with directory => true | _ => false end.

Definition is_regular_type (t : file_type) : bool :=
  match t with regular => true | _ => false end.

Definition exists_type (t : file_type) : bool :=
  match t with not_found => false | _ => true end.

(** [directory_entry::is_directory] and [is_regular_file] return
    [fs::is_directory(status())] and [fs::is_regular_file(status())]
    (C++ standard, [fs.dir.entry.obs]); [status()] follows symbolic
    links, where [symlink_status()] would not. *)
Definition entry_is_directory (e : entry) : bool :=
  is_directory_type (status (snd e)).

Definition entry_is_regular_file (e : entry) : bool :=
  is_regular_type (status (snd e)).

(** ** Output streams

    [std::ostringstream]: the characters written so far and the failure
    state.  Every inserter first builds a sentry, and inserts nothing
    when the stream is not good. *)

Record ostringstream : Type := mk_oss { str : string; failed : bool }.

Definition oss_empty : ostringstream := mk_oss EmptyString false.

(** [out << s] for a string, a character or a number already printed. *)
Definition put (o : ostringstream) (s : string) : ostringstream :=
  if failed o then o else mk_oss (str o ++ s) false.

(** [out << ifs.rdbuf()]: copies the rest of the file; "if the function
    inserts no characters, it calls setstate(failbit)"
    (C++ standard, [ostream.inserters]). *)
Definition put_rdbuf (o : ostringstream) (content : string) : ostringstream :=
  if failed o then o
  else match content with
       | EmptyString => mk_oss (str o) true
       | _ => mk_oss (str o ++ content) false
       end.

(** The report buffer [out] and the error stream [std::cerr]. *)
Record streams : Type := mk_streams { out : ostringstream; cerr : string }.

Definition to_out (s : streams) (t : string) : streams :=
  mk_streams (put (out s) t) (cerr s).

Definition to_cerr (s : streams) (t : string) : streams :=
  mk_streams (out s) (cerr s ++ t).

Declare Scope stream_scope.
Delimit Scope stream_scope with stream.
Notation "s << t" := (to_out s t) (at level 50, left associativity) : stream_scope.
Notation "s <<! t" := (to_cerr s t) (at level 50, left associativity) : stream_scope.
Local Open Scope stream_scope.

(** ** Constants *)

Definition kToolName : string := "repopac".
Definition kVersion : string := "0.1.0".
Definition kMaxBytes : N := (16 * 1024)%N.

(** Decimal output of an unsigned number. *)
Definition show_N (n : N) : string := NilZero.string_of_uint (N.to_uint n).

(** ** [print_file] *)

Definition open_fence (ext : string) : string :=
  if ext =? ".json" then fence ++ "json" ++ nl
  else if ext =? ".js" then fence ++ "javascript" ++ nl
  else if (ext =? ".cpp") || (ext =? ".hpp") then fence ++ "cpp" ++ nl
  else fence ++ nl.

Definition truncation_notice (sz : N) : string :=
  nl ++ "... (truncated; original " ++ show_N sz ++ " bytes, showing first "
     ++ show_N kMaxBytes ++ " bytes)" ++ nl.

(** [ifs.read(buf, kMaxBytes)] followed by
    [std::string(buf.data(), ifs.gcount())]. *)
Definition read_prefix (content : string) : string :=
  substring 0 (N.to_nat kMaxBytes) content.

Definition print_file (p : path) (f : node) (s : streams) : streams :=
  let s := s << "### File: " << p << nl in
  let s := s << open_fence (extension p) in
  let sz := file_size f in
  let s :=
    match open_read f with
    | None => s <<! ("(Could not open file)" ++ nl)
    | Some content =>
        if (sz <=? kMaxBytes)%N
        then mk_streams (put_rdbuf (out s) content) (cerr s) << nl
        else s << read_prefix content << truncation_notice sz
    end in
  s << (fence ++ nl ++ nl).

(** ** Directory listings in sorted order *)

(** The comparator given to [std::sort]:
    [a.path().filename() < b.path().filename()].  The filename of the
    path of a directory entry is the entry's name (see
    [filename_append_name]); paths made of one filename compare as their
    character strings do, character by character as unsigned bytes. *)
Definition entry_lt (a b : entry) : bool := (fst a <? fst b).

(** [std::sort] leaves the order of equivalent elements unspecified; the
    names in one directory are pairwise different, so the sorted sequence
    is determined (see [sorted_listing_unique]).  It is computed here by
    insertion. *)
Fixpoint insert_entry (e : entry) (l : list entry) : list entry :=
  match l with
  | [] => [e]
  | h :: t => if entry_lt e h then e :: l else h :: insert_entry e t
  end.

Definition sort_entries (l : list entry) : list entry :=
  fold_right insert_entry [] l.

(** The path of a directory entry: [root / name]. *)
Definition entry_path (root : path) (e : entry) : path :=
  Path.append root (fst e).

(** The nesting depth of directories below a node; it bounds the
    recursion of the two tree walks. *)
Fixpoint height (n : node) : nat :=
  match n with
  | Directory es =>
      S ((fix heights (l : list entry) : nat :=
            match l with
            | [] => 0
            | (_, c) :: r => Nat.max (height c) (heights r)
            end) es)
  | Symlink t => height t
  | _ => 0
  end.

(** ** [collect_files]

    A collected path is kept together with the object it names, which is
    what the file system hands back when [print_file] opens the path. *)

Definition located : Type := (path * node)%type.

(** The body of the loop over the sorted entries; [recur] is the
    recursive call. *)
Definition collect_entry
    (recur : path -> node -> list located -> list located)
    (root : path) (files : list located) (e : entry) : list located :=
  if entry_is_directory e
  then recur (entry_path root e) (snd e) files
  else if entry_is_regular_file e
  then (files ++ [(entry_path root e, snd e)])%list
  else files.

(** [fuel] bounds the depth of the recursion, which the source leaves
    unbounded; [collect_files] below supplies enough of it. *)
Fixpoint collect_files_rec (fuel : nat) (root : path) (n : node)
    (files : list located) : list located :=
  match fuel with
  | O => files
  | S fuel' =>
      if negb (exists_type (status n)) then files
      else if is_directory_type (status n) then
        fold_left (collect_entry (collect_files_rec fuel') root)
                  (sort_entries (readdir n)) files
      else if is_regular_type (status n) then (files ++ [(root, n)])%list
      else files
  end.

Definition collect_files (root : path) (n : node) (files : list located)
  : list located :=
  collect_files_rec (S (height n)) root n files.

(** ** [print_structure] *)

Fixpoint spaces (k : nat) : string :=
  match k with
  | O => EmptyString
  | S k' => String " "%char (spaces k')
  end.

(** The body of the loop over the sorted entries; [recur] is the
    recursive call. *)
Definition structure_entry
    (recur : ostringstream -> path -> node -> nat -> ostringstream)
    (root : path) (depth : nat) (o : ostringstream) (e : entry)
  : ostringstream :=
  let indent := spaces (depth * 2) in
  let name := fst e in
  if entry_is_directory e
  then recur (put (put (put o indent) name) ("/" ++ nl))
             (entry_path root e) (snd e) (depth + 1)
  else if entry_is_regular_file e
  then put (put (put o indent) name) nl
  else o.

Fixpoint print_structure_rec (fuel : nat) (o : ostringstream) (root : path)
    (n : node) (depth : nat) : ostringstream :=
  match fuel with
  | O => o
  | S fuel' =>
      if negb (exists_type (status n)) then o
      else if is_directory_type (status n) then
        fold_left (structure_entry (print_structure_rec fuel') root depth)
                  (sort_entries (readdir n)) o
      else o
  end.

Definition print_structure (o : ostringstream) (root : path) (n : node)
    (depth : nat) : ostringstream :=
  print_structure_rec (S (height n)) o root n depth.

(** ** [is_git_repo] and [print_dir] *)

(** The object named by [dir / name]. *)
Fixpoint child (name : string) (es : list entry) : option node :=
  match es with
  | [] => None
  | (k, c) :: r => if k =? name then Some c else child name r
  end.

Definition is_git_repo (dir : node) : bool :=
  let t := path_status (child ".git" (readdir dir)) in
  exists_type t && is_directory_type t.

Definition print_files (files : list located) (s : streams) : streams :=
  fold_left (fun s f => print_file (fst f) (snd f) s) files s.

Definition print_dir (cwd : path) (p : path) (d : node) (s : streams)
  : streams :=
  let s := s << ("# Repository Context" ++ nl ++ nl) in
  let s := s << ("## File System Location" ++ nl ++ nl) in
  let s := s << generic_string (absolute cwd p) << (nl ++ nl) in
  let s :=
    if is_git_repo d
    then s << ("## Git Info" ++ nl ++ nl)
    else s << ("Not a git repository" ++ nl ++ nl) in
  let s := s << ("## Structure" ++ nl) in
  let s := s << (fence ++ nl) in
  let s := mk_streams (print_structure (out s) p d 0) (cerr s) in
  let s := s << (fence ++ nl ++ nl) in
  let files := collect_files p d [] in
  match files with
  | [] => s
  | _ => print_files files (s << ("## File Contents" ++ nl ++ nl))
  end.

(** ** [main] *)

(** What one run observes of its environment: the current directory and
    the object, if any, that each path names. *)
Record world : Type := mk_world {
  current_path : path;
  lookup : path -> option node
}.

(** What one run leaves behind. *)
Record outcome : Type := mk_outcome {
  stdout : string;
  stderr : string;
  exit_code : nat
}.

(** What [print_help] writes to standard output. *)
Definition print_help : string :=
  "Usage: " ++ nl ++ tab ++ "RepoPac [PATH ...][OPTIONS]" ++ nl
  ++ "Description:" ++ nl ++ tab
  ++ "RepoPac can help you package repository's content" ++ nl
  ++ "Options:" ++ nl
  ++ tab ++ "-h, --help" ++ tab ++ "Show this help and exit" ++ nl
  ++ tab ++ "-v, --version" ++ tab ++ "Show version and exit" ++ nl
  ++ "Arguments:" ++ nl
  ++ tab ++ "One directories/One or more files(default: .)" ++ nl.

Definition version_text : string := kToolName ++ " " ++ kVersion ++ nl.

Definition unknown_option_text (arg : string) : string :=
  "Unknown option: " ++ arg ++ nl ++ "Use -h or --help for usage." ++ nl.

Definition is_help (arg : string) : bool := (arg =? "-h") || (arg =? "--help").

Definition is_version (arg : string) : bool :=
  (arg =? "-v") || (arg =? "--version").

(** [!arg.empty() && arg[0] == '-'] *)
Definition starts_with_dash (arg : string) : bool :=
  match arg with
  | String c _ => Ascii.eqb c "-"%char
  | EmptyString => false
  end.

(** How the argument loop ends. *)
Inductive parsed : Type :=
| ShowHelp
| ShowVersion
| UnknownOption (arg : string)
| Targets (paths : list string).

Fixpoint parse_args (args : list string) (paths : list string) : parsed :=
  match args with
  | [] => Targets paths
  | arg :: rest =>
      if is_help arg then ShowHelp
      else if is_version arg then ShowVersion
      else if starts_with_dash arg then UnknownOption arg
      else parse_args rest (paths ++ [arg])%list
  end.

Definition not_valid_text (p : string) : string :=
  p ++ "is not a valid directory or file" ++ nl.

(** [pexists], [is_dir] and [is_file], at a path that names [n]. *)
Definition pexists (n : node) : bool := exists_type (status n).
Definition is_dir (n : node) : bool := is_directory_type (status n).
Definition is_file (n : node) : bool := is_regular_type (status n).

(** The body of the loop over the targets.  At a path that names
    nothing [pexists] is false. *)
Definition process_target (w : world) (s : streams) (p : string) : streams :=
  match lookup w p with
  | None => s <<! not_valid_text p
  | Some n =>
      if negb (pexists n) then s <<! not_valid_text p
      else if is_dir n then print_dir (current_path w) p n s
      else if is_file n
      then print_file p n (s << ("## File Contents" ++ nl ++ nl))
      else s
  end.

Definition process_targets (w : world) (paths : list string) (s : streams)
  : streams :=
  fold_left (process_target w) paths s.

Definition fresh : streams := mk_streams oss_empty EmptyString.

(** [argv[1..]] in, the two output streams and the exit status out. *)
Definition main (w : world) (args : list string) : outcome :=
  match parse_args args [] with
  | ShowHelp => mk_outcome print_help EmptyString 0
  | ShowVersion => mk_outcome version_text EmptyString 0
  | UnknownOption arg => mk_outcome EmptyString (unknown_option_text arg) 1
  | Targets paths =>
      let paths := match paths with [] => ["."] | _ => paths end in
      let s := process_targets w paths fresh in
      mk_outcome (str (out s)) (cerr s) 0
  end.

(** ** Notions used in the statements *)

(** No later entry has a smaller name than an earlier one. *)
Definition listing_sorted (l : list entry) : Prop :=
  StronglySorted (fun a b => entry_lt b a = false) l.

(** A stream only grows. *)
Definition extends (o o' : ostringstream) : Prop :=
  exists t, str o' = str o ++ t.

(** What [print_file] writes before the content. *)
Definition file_header (p : path) : string :=
  "### File: " ++ p ++ nl ++ open_fence (extension p).

(** The start of what [print_dir] writes. *)
Definition location_text (cwd p : path) : string :=
  "# Repository Context" ++ nl ++ nl
  ++ "## File System Location" ++ nl ++ nl
  ++ generic_string (absolute cwd p) ++ nl ++ nl.

Definition vcs_text (d : node) : string :=
  if is_git_repo d
  then "## Git Info" ++ nl ++ nl
  else "Not a git repository" ++ nl ++ nl.

(** A token that is an option and none of the four known ones. *)
Definition is_unknown_option (arg : string) : bool :=
  negb (is_help arg) && negb (is_version arg) && starts_with_dash arg.

(** The first token of the argument list that starts with [-]. *)
Definition first_option (args : list string) : option string :=
  find starts_with_dash args.


(** A world in which no path names anything. *)
Definition empty_world : world := mk_world "/" (fun _ => None).

(** A world whose only object is a socket. *)
Definition socket_world : world :=
  mk_world "/" (fun p => if p =? "/run/app.sock" then Some Special else None).

(** A string of [k] copies of one character. *)
Fixpoint replicate (k : nat) (c : ascii) : string :=
  match k with
  | O => EmptyString
  | S k' => String c (replicate k' c)
  end.

(** [needle] occurs in [hay]. *)
Fixpoint contains (needle hay : string) : bool :=
  prefix needle hay
  || match hay with
     | EmptyString => false
     | String _ r => contains needle r
     end.

(** A canonical path has no [.] and no [..] among its components. *)
Definition has_dot_component (p : path) : bool :=
  existsb (fun c => (c =? ".") || (c =? "..")) (components p).

(** A world whose current directory is an empty directory. *)
Definition plain_dir_world : world :=
  mk_world "/home/u" (fun p => if p =? "." then Some (Directory []) else None).

(** An entry that is neither a directory nor a regular file once
    symbolic links are followed: a device, a socket, a FIFO, a link that
    dangles or leads to one of these. *)
Definition entry_is_ignored (e : entry) : bool :=
  negb (entry_is_directory e) && negb (entry_is_regular_file e).

(** The tree without such entries, at every level. *)
Fixpoint prune (n : node) : node :=
  match n with
  | Directory es =>
      Directory
        ((fix prune_entries (l : list entry) : list entry :=
            match l with
            | [] => []
            | (k, c) :: r =>
                if entry_is_ignored (k, c) then prune_entries r
                else (k, prune c) :: prune_entries r
            end) es)
  | Symlink t => Symlink (prune t)
  | _ => n
  end.

Definition prune_entry (e : entry) : entry := (fst e, prune (snd e)).

(** An entry that [prune] keeps. *)
Definition kept (e : entry) : bool := negb (entry_is_ignored e).

(** Two observations of one tree: the same objects, each directory
    enumerated in an order of its own. *)
Inductive same_tree : node -> node -> Prop :=
| same_regular (r : bool) (c : string) :
    same_tree (Regular r c) (Regular r c)
| same_directory (es mid es' : list entry) :
    Permutation es mid ->
    Forall2 (fun a b => fst a = fst b /\ same_tree (snd a) (snd b)) mid es' ->
    same_tree (Directory es) (Directory es')
| same_symlink (t t' : node) :
    same_tree t t' -> same_tree (Symlink t) (Symlink t')
| same_dangling : same_tree Dangling Dangling
| same_special : same_tree Special Special.

Definition same_entry (a b : entry) : Prop :=
  fst a = fst b /\ same_tree (snd a) (snd b).

(** The names in each directory are pairwise different. *)
Fixpoint distinct_names (n : node) : Prop :=
  match n with
  | Directory es =>
      NoDup (map fst es)
      /\ (fix all (l : list entry) : Prop :=
            match l with
            | [] => True
            | (_, c) :: r => distinct_names c /\ all r
            end) es
  | Symlink t => distinct_names t
  | _ => True
  end.

(** Two runs see the same environment. *)
Definition same_object (a b : option node) : Prop :=
  match a, b with
  | Some n, Some n' => same_tree n n'
  | None, None => True
  | _, _ => False
  end.

Definition same_world (w w' : world) : Prop :=
  current_path w = current_path w'
  /\ forall p, same_object (lookup w p) (lookup w' p).

Definition world_distinct_names (w : world) : Prop :=
  forall p n, lookup w p = Some n -> distinct_names n.

(** One repository, enumerated in two orders. *)
Definition repo_listing_1 : node :=
  Directory [("b.txt", Regular true "bee");
             ("src", Directory [("z.cpp", Regular true "int z;");
                                ("a.js", Regular true "let a;")]);
             ("a.txt", Regular true "ay")].

Definition repo_listing_2 : node :=
  Directory [("a.txt", Regular true "ay");
             ("b.txt", Regular true "bee");
             ("src", Directory [("a.js", Regular true "let a;");
                                ("z.cpp", Regular true "int z;")])].

Definition run_1 : world :=
  mk_world "/home/u" (fun p => if p =? "repo" then Some repo_listing_1 else None).

Definition run_2 : world :=
  mk_world "/home/u" (fun p => if p =? "repo" then Some repo_listing_2 else None).

(** A name that holds no directory separator, as the names of directory
    entries are. *)
Fixpoint no_separator (name : string) : bool :=
  match name with
  | EmptyString => true
  | String c r => negb (Ascii.eqb c separator) && no_separator r
  end.

(** ** Notions used for the composition of writers *)

(** The buffer [o] followed by what a writer left in the empty buffer. *)
Definition oss_cat (o r : ostringstream) : ostringstream :=
  mk_oss (str o ++ str r) (failed r).

(** What [o] becomes under a writer that turns the empty buffer into
    [r]: a failed buffer stays as it is. *)
Definition resume (o r : ostringstream) : ostringstream :=
  if failed o then o else oss_cat o r.

(** A writer on the report buffer whose effect on any buffer is given by
    its effect on the empty one. *)
Definition appends (f : ostringstream -> ostringstream) : Prop :=
  forall o, f o = resume o (f oss_empty).

(** The same for a writer on both streams; the error stream only grows,
    whatever the state of the report buffer. *)
Definition segment (F : streams -> streams) : Prop :=
  forall s,
    out (F s) = resume (out s) (out (F fresh))
    /\ cerr (F s) = cerr s ++ cerr (F fresh).

(** Concatenation of a list of texts. *)
Fixpoint join (l : list string) : string :=
  match l with
  | [] => EmptyString
  | x :: r => x ++ join r
  end.

(** The text [print_structure] writes for a node. *)
Definition structure_text (root : path) (n : node) (depth : nat) : string :=
  str (print_structure oss_empty root n depth).


(** The files one entry of a listing contributes. *)
Definition entry_files (root : path) (e : entry) : list located :=
  if entry_is_directory e
  then collect_files (entry_path root e) (snd e) []
  else if entry_is_regular_file e
  then [(entry_path root e, snd e)]
  else [].

(** A file that can be opened and holds no byte. *)
Definition empty_readable (f : node) : bool :=
  match open_read f with
  | Some EmptyString => true
  | _ => false
  end.

(** What [print_file] writes to the error stream for a file. *)
Definition open_diagnostic (f : node) : string :=
  match open_read f with
  | None => "(Could not open file)" ++ nl
  | Some _ => EmptyString
  end.

(** What [print_file] leaves in a fresh report buffer. *)
Definition render (f : located) : ostringstream :=
  out (print_file (fst f) (snd f) fresh).

(** The file-contents part of a directory report, in a fresh buffer. *)
Definition files_section (files : list located) : ostringstream :=
  match files with
  | [] => oss_empty
  | _ => out (print_files files (fresh << ("## File Contents" ++ nl ++ nl)))
  end.

(** The part of a directory report that precedes the files. *)
Definition report_head (cwd p : path) (d : node) : string :=
  location_text cwd p ++ vcs_text d ++ "## Structure" ++ nl ++ fence ++ nl
  ++ structure_text p d 0 ++ fence ++ nl ++ nl.

(** The targets of a run without options. *)
Definition default_targets (args : list string) : list string :=
  match args with
  | [] => ["."]
  | _ => args
  end.

(** What the first option token of the argument list decides. *)
Definition decided_by (o : option string) (args : list string) : parsed :=
  match o with
  | None => Targets args
  | Some f =>
      if is_help f then ShowHelp
      else if is_version f then ShowVersion
      else UnknownOption f
  end.

(** A world with a readable file, an unreadable file and a directory
    that holds an unreadable file and an empty one. *)
Definition mixed_world : world :=
  mk_world "/srv"
    (fun p =>
       if p =? "notes.md" then Some (Regular true "hello")
       else if p =? "secret.key" then Some (Regular false "key")
       else if p =? "box"
       then Some (Directory [("z.bin", Regular false "zz");
                             ("empty.txt", Regular true EmptyString);
                             ("a.cpp", Regular true "int a;")])
       else None).

(** A target under which [print_file] meets an empty file that can be
    opened: the target itself, or a file collected below it. *)
Definition target_has_empty_file (w : world) (p : string) : bool :=
  match lookup w p with
  | None => false
  | Some n =>
      if negb (pexists n) then false
      else if is_dir n
      then existsb (fun f => empty_readable (snd f)) (collect_files p n [])
      else if is_file n then empty_readable n
      else false
  end.

(** A text that holds no period. *)
Fixpoint no_dot (t : string) : bool :=
  match t with
  | EmptyString => true
  | String c r => negb (Ascii.eqb c "."%char) && no_dot r
  end.

(** The names a path is made of: its components that are not empty. *)
Definition names (p : path) : list string :=
  filter (fun c => negb (c =? EmptyString)) (components p).

(** No separator is followed by another one. *)
Fixpoint no_double_separator (p : path) : bool :=
  match p with
  | EmptyString => true
  | String c r =>
      negb (Ascii.eqb c separator && is_absolute r) && no_double_separator r
  end.

(** The tree in which every symbolic link is replaced by the object it
    resolves to, at every level. *)
Fixpoint resolve (n : node) : node :=
  match n with
  | Directory es =>
      Directory
        ((fix resolve_entries (l : list entry) : list entry :=
            match l with
            | [] => []
            | (k, c) :: r => (k, resolve c) :: resolve_entries r
            end) es)
  | Symlink t => resolve t
  | _ => n
  end.

Definition resolve_entry (e : entry) : entry := (fst e, resolve (snd e)).

Definition resolve_located (f : located) : located :=
  (fst f, resolve (snd f)).

(** A tree with links to a file, to a directory and to nothing. *)
Definition linked_tree : node :=
  Directory [("cur", Symlink (Directory [("v.js", Regular true "1;")]));
             ("lost", Dangling);
             ("readme", Symlink (Symlink (Regular true "hi")));
             (".git", Symlink (Directory []))].

(** A repository that holds an empty [a.txt] and a [b.txt]. *)
Definition touched_world : world :=
  mk_world "/home/u"
    (fun p => if p =? "repo"
              then Some (Directory [("b.txt", Regular true "data");
                                    ("a.txt", Regular true EmptyString)])
              else None).

(** * Properties *)

(** ** The order on names *)

Section NameOrder.

Lemma ascii_compare_refl (a : ascii) : Ascii.compare a a = Eq.
Proof. unfold Ascii.compare. apply N.compare_refl. Qed.

Lemma ascii_compare_lt_trans (a b c : ascii) :
  Ascii.compare a b = Lt -> Ascii.compare b c = Lt -> Ascii.compare a c = Lt.
Proof.
  unfold Ascii.compare. rewrite !N.compare_lt_iff. lia.
Qed.

Lemma name_compare_refl (a : string) : (a ?= a) = Eq.
Proof.
  induction a as [|c a IH]; simpl; [reflexivity|].
  now rewrite ascii_compare_refl.
Qed.

Lemma name_compare_lt_trans (a : string) :
  forall b c, (a ?= b) = Lt -> (b ?= c) = Lt -> (a ?= c) = Lt.
Proof.
  induction a as [|x a IH]; intros [|y b] [|z c]; simpl;
    try congruence.
  destruct (Ascii.compare x y) eqn:Hxy; try discriminate;
    destruct (Ascii.compare y z) eqn:Hyz; try discriminate; intros Hab Hbc.
  - apply Ascii.compare_eq_iff in Hxy, Hyz. subst.
    rewrite ascii_compare_refl. eauto.
  - apply Ascii.compare_eq_iff in Hxy. subst. now rewrite Hyz.
  - apply Ascii.compare_eq_iff in Hyz. subst. now rewrite Hxy.
  - now rewrite (ascii_compare_lt_trans _ _ _ Hxy Hyz).
Qed.

Lemma name_ltb_irrefl (a : string) : (a <? a) = false.
Proof. unfold String.ltb. now rewrite name_compare_refl. Qed.

Lemma name_ltb_trans (a b c : string) :
  (a <? b) = true -> (b <? c) = true -> (a <? c) = true.
Proof.
  unfold String.ltb.
  destruct (a ?= b) eqn:Hab; try discriminate.
  destruct (b ?= c) eqn:Hbc; try discriminate.
  now rewrite (name_compare_lt_trans _ _ _ Hab Hbc).
Qed.

Lemma name_ltb_trichotomy (a b : string) :
  (a <? b) = false -> (b <? a) = false -> a = b.
Proof.
  unfold String.ltb. rewrite (String.compare_antisym b a).
  destruct (a ?= b) eqn:Hab; simpl; try discriminate.
  intros _ _. now apply String.compare_eq_iff.
Qed.

(** [a < b] and [b <= c] give [a < c]. *)
Lemma name_ltb_leb_trans (a b c : string) :
  (a <? b) = true -> (c <? b) = false -> (a <? c) = true.
Proof.
  intros Hab Hcb.
  destruct (b <? c) eqn:Hbc.
  - eapply name_ltb_trans; eauto.
  - now rewrite <- (name_ltb_trichotomy _ _ Hbc Hcb).
Qed.

End NameOrder.

(** ** Sorting a listing *)

Section Sorting.

Lemma insert_entry_perm (e : entry) (l : list entry) :
  Permutation (e :: l) (insert_entry e l).
Proof.
  induction l as [|h t IH]; simpl; [reflexivity|].
  destruct (entry_lt e h); [reflexivity|].
  rewrite perm_swap. now constructor.
Qed.

Lemma sort_entries_perm (l : list entry) : Permutation l (sort_entries l).
Proof.
  induction l as [|e l IH]; simpl; [constructor|].
  rewrite <- insert_entry_perm. now constructor.
Qed.

Lemma insert_entry_sorted (e : entry) (l : list entry) :
  listing_sorted l -> listing_sorted (insert_entry e l).
Proof.
  unfold listing_sorted.
  induction l as [|h t IH]; simpl; intros Hs.
  - repeat constructor.
  - inversion Hs as [|? ? Ht Hh]; subst.
    destruct (entry_lt e h) eqn:Heh.
    + constructor; [assumption|]. constructor.
      * unfold entry_lt in *.
        destruct (fst h <? fst e) eqn:Hhe; [|reflexivity].
        pose proof (name_ltb_trans _ _ _ Heh Hhe) as Hee.
        now rewrite name_ltb_irrefl in Hee.
      * rewrite Forall_forall in *. intros x Hx.
        specialize (Hh x Hx). unfold entry_lt in *.
        destruct (fst x <? fst e) eqn:Hxe; [|reflexivity].
        rewrite (name_ltb_trans _ _ _ Hxe Heh) in Hh. discriminate.
    + constructor; [now apply IH|].
      rewrite Forall_forall in *. intros x Hx.
      apply (Permutation_in _ (Permutation_sym (insert_entry_perm e t))) in Hx.
      destruct Hx as [<-|Hx]; [assumption|now apply Hh].
Qed.

Lemma sort_entries_sorted (l : list entry) : listing_sorted (sort_entries l).
Proof.
  induction l as [|e l IH]; simpl; [constructor|].
  now apply insert_entry_sorted.
Qed.

(** With pairwise different names, a listing has one sorted
    arrangement: the result of [std::sort] does not depend on the
    algorithm, nor on the order of enumeration. *)
Lemma sorted_listing_unique (l1 : list entry) :
  forall l2, Permutation l1 l2 -> NoDup (map fst l1) ->
             listing_sorted l1 -> listing_sorted l2 -> l1 = l2.
Proof.
  unfold listing_sorted.
  induction l1 as [|a t1 IH]; intros l2 Hp Hnd H1 H2.
  - now apply Permutation_nil in Hp.
  - destruct l2 as [|b t2].
    { apply Permutation_sym, Permutation_nil in Hp. discriminate. }
    inversion H1 as [|? ? Ht1 Ha]; subst.
    inversion H2 as [|? ? Ht2 Hb]; subst.
    inversion Hnd as [|? ? Hnotin Hnd']; subst.
    rewrite Forall_forall in Ha, Hb.
    assert (Hab : a = b).
    { assert (Hin_a : In a (b :: t2))
        by (eapply Permutation_in; [exact Hp|now left]).
      assert (Hin_b : In b (a :: t1))
        by (eapply Permutation_in;
            [exact (Permutation_sym Hp)|now left]).
      destruct Hin_b as [Hba|Hbt1]; [congruence|].
      destruct Hin_a as [Hba|Hat2]; [congruence|].
      exfalso. apply Hnotin.
      specialize (Ha b Hbt1). specialize (Hb a Hat2).
      unfold entry_lt in *.
      rewrite (name_ltb_trichotomy _ _ Hb Ha).
      now apply in_map. }
    subst b. f_equal.
    apply IH; auto. eapply Permutation_cons_inv; eauto.
Qed.

Lemma sort_entries_order_irrelevant (l l' : list entry) :
  Permutation l l' -> NoDup (map fst l) -> sort_entries l = sort_entries l'.
Proof.
  intros Hp Hnd. apply sorted_listing_unique.
  - rewrite <- (sort_entries_perm l), <- (sort_entries_perm l'). exact Hp.
  - eapply Permutation_NoDup; [|exact Hnd].
    apply Permutation_map, sort_entries_perm.
  - apply sort_entries_sorted.
  - apply sort_entries_sorted.
Qed.

(** Sorting looks at names only. *)
Lemma insert_entry_Forall2 (R : entry -> entry -> Prop) :
  (forall a b, R a b -> fst a = fst b) ->
  forall x x' l l', R x x' -> Forall2 R l l' ->
                    Forall2 R (insert_entry x l) (insert_entry x' l').
Proof.
  intros Hname x x' l l' Hx Hl.
  induction Hl as [|h h' t t' Hh Ht IH]; simpl.
  - now repeat constructor.
  - unfold entry_lt.
    rewrite <- (Hname _ _ Hx), <- (Hname _ _ Hh).
    destruct (fst x <? fst h); repeat (constructor; auto).
Qed.

Lemma sort_entries_Forall2 (R : entry -> entry -> Prop) :
  (forall a b, R a b -> fst a = fst b) ->
  forall l l', Forall2 R l l' -> Forall2 R (sort_entries l) (sort_entries l').
Proof.
  intros Hname l l' Hl.
  induction Hl; simpl; [constructor|].
  now apply insert_entry_Forall2.
Qed.

Lemma insert_entry_front (e : entry) (l : list entry) :
  Forall (fun y => entry_lt e y = true) l -> insert_entry e l = e :: l.
Proof.
  destruct l as [|h t]; simpl; [reflexivity|].
  intros Hl. inversion Hl as [|? ? Hh _]; subst. now rewrite Hh.
Qed.

(** Dropping entries commutes with sorting. *)
Lemma filter_insert_entry (keep : entry -> bool) (e : entry) (l : list entry) :
  listing_sorted l ->
  filter keep (insert_entry e l) =
    if keep e then insert_entry e (filter keep l) else filter keep l.
Proof.
  unfold listing_sorted.
  induction l as [|h t IH]; intros Hs; simpl.
  - destruct (keep e); reflexivity.
  - inversion Hs as [|? ? Ht Hh]; subst.
    destruct (entry_lt e h) eqn:Heh; simpl.
    + destruct (keep e) eqn:Hke; [|reflexivity].
      rewrite insert_entry_front; [reflexivity|].
      assert (Hall : Forall (fun y => entry_lt e y = true) (h :: t)).
      { constructor; [assumption|].
        rewrite Forall_forall in *. intros y Hy.
        unfold entry_lt in *.
        eapply name_ltb_leb_trans; [exact Heh|now apply Hh]. }
      change (if keep h then h :: filter keep t else filter keep t)
        with (filter keep (h :: t)).
      rewrite Forall_forall in *. intros y Hy.
      apply filter_In in Hy. now apply Hall.
    + rewrite (IH Ht).
      destruct (keep h) eqn:Hkh, (keep e) eqn:Hke; simpl;
        rewrite ?Heh; reflexivity.
Qed.

Lemma filter_sort_entries (keep : entry -> bool) (l : list entry) :
  filter keep (sort_entries l) = sort_entries (filter keep l).
Proof.
  induction l as [|e l IH]; simpl; [reflexivity|].
  rewrite filter_insert_entry by apply sort_entries_sorted.
  rewrite IH. destruct (keep e); reflexivity.
Qed.

End Sorting.

(** ** The recursion is deep enough *)

Section Fuel.

Lemma fold_left_ext_in (A B : Type) (f g : A -> B -> A) (l : list B) :
  (forall a e, In e l -> f a e = g a e) ->
  forall a, fold_left f l a = fold_left g l a.
Proof.
  induction l as [|x l IH]; intros Hfg a; simpl; [reflexivity|].
  rewrite Hfg by now left. apply IH. intros; apply Hfg; now right.
Qed.

Lemma height_entry (n : node) :
  forall e, In e (readdir n) -> height (snd e) < height n.
Proof.
  induction n as [r c|es|t IH| |]; simpl; try contradiction; auto.
  induction es as [|[k c] es IHes]; intros e; simpl; [contradiction|].
  intros [<-|Hin]; simpl; [lia|].
  specialize (IHes e Hin). lia.
Qed.

Lemma in_sorted_readdir (n : node) (e : entry) :
  In e (sort_entries (readdir n)) -> In e (readdir n).
Proof.
  apply Permutation_in, Permutation_sym, sort_entries_perm.
Qed.

Lemma collect_files_rec_any_fuel (f1 : nat) :
  forall f2 root n files,
    height n < f1 -> height n < f2 ->
    collect_files_rec f1 root n files = collect_files_rec f2 root n files.
Proof.
  induction f1 as [|f1 IH]; intros [|f2] root n files H1 H2; try lia.
  simpl. destruct (status n); simpl; try reflexivity.
  apply fold_left_ext_in. intros a e He.
  apply in_sorted_readdir, height_entry in He.
  unfold collect_entry.
  destruct (entry_is_directory e); [|reflexivity].
  apply IH; lia.
Qed.

Lemma print_structure_rec_any_fuel (f1 : nat) :
  forall f2 o root n depth,
    height n < f1 -> height n < f2 ->
    print_structure_rec f1 o root n depth =
      print_structure_rec f2 o root n depth.
Proof.
  induction f1 as [|f1 IH]; intros [|f2] o root n depth H1 H2; try lia.
  simpl. destruct (status n); simpl; try reflexivity.
  apply fold_left_ext_in. intros a e He.
  apply in_sorted_readdir, height_entry in He.
  unfold structure_entry.
  destruct (entry_is_directory e); [|reflexivity].
  apply IH; lia.
Qed.

Lemma collect_files_rec_enough (fuel : nat) root n files :
  height n < fuel ->
  collect_files_rec fuel root n files = collect_files root n files.
Proof. intros H. apply collect_files_rec_any_fuel; lia. Qed.

Lemma print_structure_rec_enough (fuel : nat) o root n depth :
  height n < fuel ->
  print_structure_rec fuel o root n depth = print_structure o root n depth.
Proof. intros H. apply print_structure_rec_any_fuel; lia. Qed.

(** The two walks satisfy the equations of the source text. *)
Lemma collect_files_eq (root : path) (n : node) (files : list located) :
  collect_files root n files =
    if negb (exists_type (status n)) then files
    else if is_directory_type (status n) then
      fold_left (collect_entry collect_files root)
                (sort_entries (readdir n)) files
    else if is_regular_type (status n) then (files ++ [(root, n)])%list
    else files.
Proof.
  unfold collect_files at 1. simpl.
  destruct (status n); simpl; try reflexivity.
  apply fold_left_ext_in. intros a e He.
  apply in_sorted_readdir, height_entry in He.
  unfold collect_entry.
  destruct (entry_is_directory e); [|reflexivity].
  now apply collect_files_rec_enough.
Qed.

Lemma print_structure_eq (o : ostringstream) (root : path) (n : node)
    (depth : nat) :
  print_structure o root n depth =
    if negb (exists_type (status n)) then o
    else if is_directory_type (status n) then
      fold_left (structure_entry print_structure root depth)
                (sort_entries (readdir n)) o
    else o.
Proof.
  unfold print_structure at 1. simpl.
  destruct (status n); simpl; try reflexivity.
  apply fold_left_ext_in. intros a e He.
  apply in_sorted_readdir, height_entry in He.
  unfold structure_entry.
  destruct (entry_is_directory e); [|reflexivity].
  now apply print_structure_rec_enough.
Qed.

End Fuel.

(** Run the walks of the goal on [fuel], a bound above the heights of
    all the trees they are applied to. *)
Ltac at_fuel fuel :=
  repeat match goal with
         | |- context [collect_files ?r ?n ?f] =>
             rewrite <- (collect_files_rec_enough fuel r n f)
               by (unfold fuel; lia)
         | |- context [print_structure ?o ?r ?n ?d] =>
             rewrite <- (print_structure_rec_enough fuel o r n d)
               by (unfold fuel; lia)
         end.

(** ** Strings and streams *)

Section Streams.

Lemma app_assoc_s (a b c : string) : (a ++ b) ++ c = a ++ (b ++ c).
Proof. induction a as [|x a IH]; simpl; [reflexivity|now rewrite IH]. Qed.

Lemma app_nil_r_s (a : string) : a ++ EmptyString = a.
Proof. induction a as [|x a IH]; simpl; [reflexivity|now rewrite IH]. Qed.

Lemma length_app_s (a b : string) :
  String.length (a ++ b) = String.length a + String.length b.
Proof. induction a as [|x a IH]; simpl; [reflexivity|now rewrite IH]. Qed.

(** [substring 0 k s] is the prefix of [s] of length [min k |s|]. *)
Lemma substring_prefix (k : nat) :
  forall s, exists rest,
    s = substring 0 k s ++ rest /\
    String.length (substring 0 k s) = Nat.min k (String.length s).
Proof.
  induction k as [|k IH]; intros [|c s]; simpl.
  - exists EmptyString. auto.
  - exists (String c s). auto.
  - exists EmptyString. auto.
  - destruct (IH s) as (rest & Hs & Hl).
    exists rest. split; [now rewrite <- Hs|now rewrite Hl].
Qed.

Lemma put_good (o : ostringstream) (s : string) :
  failed o = false -> put o s = mk_oss (str o ++ s) false.
Proof. unfold put. now intros ->. Qed.

Lemma put_failed (o : ostringstream) (s : string) :
  failed o = true -> put o s = o.
Proof. unfold put. now intros ->. Qed.

Lemma put_put (o : ostringstream) (a b : string) :
  put (put o a) b = put o (a ++ b).
Proof.
  unfold put. destruct (failed o) eqn:Hf; simpl.
  - now rewrite Hf.
  - now rewrite app_assoc_s.
Qed.

Lemma put_rdbuf_nonempty (o : ostringstream) (c : string) :
  c <> EmptyString -> put_rdbuf o c = put o c.
Proof. unfold put_rdbuf, put. destruct c; congruence. Qed.

Lemma extends_refl (o : ostringstream) : extends o o.
Proof. exists EmptyString. now rewrite app_nil_r_s. Qed.

Lemma extends_trans (a b c : ostringstream) :
  extends a b -> extends b c -> extends a c.
Proof.
  intros [t Ht] [u Hu]. exists (t ++ u).
  now rewrite Hu, Ht, app_assoc_s.
Qed.

Lemma extends_put (o : ostringstream) (s : string) : extends o (put o s).
Proof.
  unfold put. destruct (failed o); [apply extends_refl|].
  now exists s.
Qed.

Lemma extends_put_rdbuf (o : ostringstream) (c : string) :
  extends o (put_rdbuf o c).
Proof.
  unfold put_rdbuf. destruct (failed o); [apply extends_refl|].
  destruct c; [|now eexists].
  exists EmptyString. simpl. now rewrite app_nil_r_s.
Qed.

Lemma extends_fold_left (A : Type) (f : ostringstream -> A -> ostringstream)
    (l : list A) :
  (forall o e, In e l -> extends o (f o e)) ->
  forall o, extends o (fold_left f l o).
Proof.
  induction l as [|x l IH]; intros Hf o; simpl; [apply extends_refl|].
  eapply extends_trans; [apply Hf; now left|].
  apply IH. intros; apply Hf; now right.
Qed.

End Streams.

(** ** The name of a directory entry *)

Section EntryName.

Lemma filename_from_no_separator (p : string) :
  forall cur, no_separator p = true -> filename_from cur p = cur.
Proof.
  induction p as [|c p IH]; intros cur; simpl; [reflexivity|].
  destruct (Ascii.eqb c separator); [discriminate|]. apply IH.
Qed.

Lemma filename_from_after_separator (a : string) :
  forall cur name,
    no_separator name = true ->
    filename_from cur (a ++ String separator name) = name.
Proof.
  induction a as [|c a IH]; intros cur name Hname; simpl.
  - now apply filename_from_no_separator.
  - destruct (Ascii.eqb c separator); now apply IH.
Qed.

Lemma ends_with_separator_split (a : string) :
  ends_with_separator a = true ->
  exists a', a = a' ++ String separator EmptyString.
Proof.
  induction a as [|c a IH]; simpl; [discriminate|].
  destruct a as [|c' a].
  - intros H. apply Ascii.eqb_eq in H. subst c. now exists EmptyString.
  - intros H. destruct (IH H) as [a' Ha'].
    exists (String c a'). simpl. now rewrite <- Ha'.
Qed.

Lemma no_separator_not_absolute (name : string) :
  no_separator name = true -> is_absolute name = false.
Proof.
  destruct name as [|c name]; simpl; [reflexivity|].
  now destruct (Ascii.eqb c separator).
Qed.

(** [e.path().filename()] is the name of the entry [e]: the filename of
    [root / name] is [name] when [name] holds no separator. *)
Lemma filename_append_name (root : path) (name : string) :
  no_separator name = true ->
  filename (Path.append root name) = name.
Proof.
  intros Hname. unfold filename, Path.append.
  rewrite (no_separator_not_absolute name Hname).
  destruct (has_filename root) eqn:Hf.
  - now apply filename_from_after_separator.
  - destruct root as [|c root]; [now apply filename_from_no_separator|].
    unfold has_filename in Hf. apply negb_false_iff in Hf.
    destruct (ends_with_separator_split _ Hf) as [a' ->].
    rewrite app_assoc_s. simpl.
    now apply filename_from_after_separator.
Qed.

End EntryName.

(** ** [print_file] and the cap *)

Section PrintFile.

Variables (p : path) (s : streams).
Hypothesis good : failed (out s) = false.

(** A readable, non-empty file of at most [kMaxBytes] bytes is shown
    whole, between the fences, with no notice. *)
Lemma print_file_within_cap (c : string) :
  c <> EmptyString ->
  (N.of_nat (String.length c) <= kMaxBytes)%N ->
  print_file p (Regular true c) s =
    mk_streams
      (mk_oss (str (out s) ++ file_header p ++ c ++ nl ++ fence ++ nl ++ nl)
              false)
      (cerr s).
Proof.
  intros Hne Hsz. unfold print_file, to_out, file_header. simpl.
  apply N.leb_le in Hsz. rewrite Hsz. simpl.
  rewrite put_rdbuf_nonempty by assumption.
  rewrite !put_put, put_good by assumption.
  now rewrite !app_assoc_s.
Qed.

(** A readable file of more than [kMaxBytes] bytes is shown up to its
    first [kMaxBytes] bytes, followed by the notice. *)
Lemma print_file_beyond_cap (c : string) :
  (kMaxBytes < N.of_nat (String.length c))%N ->
  print_file p (Regular true c) s =
    mk_streams
      (mk_oss (str (out s) ++ file_header p ++ read_prefix c
                 ++ truncation_notice (N.of_nat (String.length c))
                 ++ fence ++ nl ++ nl)
              false)
      (cerr s)
  /\ String.length (read_prefix c) = N.to_nat kMaxBytes
  /\ exists rest, c = read_prefix c ++ rest.
Proof.
  intros Hsz. split; [|split].
  - unfold print_file, to_out, file_header.
    cbn [file_size open_read out cerr].
    apply N.leb_gt in Hsz. rewrite Hsz.
    cbn [out cerr].
    rewrite !put_put, put_good by assumption.
    now rewrite !app_assoc_s.
  - unfold read_prefix.
    destruct (substring_prefix (N.to_nat kMaxBytes) c) as (rest & _ & Hl).
    rewrite Hl. lia.
  - unfold read_prefix.
    destruct (substring_prefix (N.to_nat kMaxBytes) c) as (rest & Hc & _).
    now exists rest.
Qed.

(** A file that cannot be opened leaves a diagnostic on the error
    stream and an empty block in the report. *)
Lemma print_file_unreadable (c : string) :
  print_file p (Regular false c) s =
    mk_streams
      (mk_oss (str (out s) ++ file_header p ++ fence ++ nl ++ nl) false)
      (cerr s ++ "(Could not open file)" ++ nl).
Proof.
  unfold print_file, to_out, to_cerr, file_header. simpl.
  rewrite !put_put, put_good by assumption.
  now rewrite !app_assoc_s.
Qed.

End PrintFile.

(** Claim C1.  The File Renderer is to show a file of at most 16384 bytes
    whole inside its fence, and a larger one up to its first 16384 bytes
    followed by the truncation notice ([print_file_within_cap] and
    [print_file_beyond_cap] establish both for a readable file that is
    not empty).  An empty file has size 0, within the cap, and the code
    departs from the statement there: [out << ifs.rdbuf()] inserts no
    character and thereby sets the failure state of the report buffer,
    so neither the line end nor the closing fence is written, and every
    later insertion into the report is dropped. *)
Theorem print_file_empty_file_unclosed_fence :
  forall p : path,
    let r := out (print_file p (Regular true EmptyString) fresh) in
    str r = "### File: " ++ p ++ nl ++ open_fence (extension p)
    /\ failed r = true
    /\ forall t, put r t = r.
Proof.
  intros p r. unfold r, print_file, fresh, to_out. simpl.
  rewrite app_assoc_s. repeat split.
Qed.

(** The same defect seen from [main]: the report of a directory that
    holds an empty file ends at that file's opening fence, and the files
    after it are lost. *)
Example report_cut_short_by_empty_file :
  let d := Directory [("a.txt", Regular true EmptyString);
                      ("b.txt", Regular true "data")] in
  let w := mk_world "/home/u"
             (fun p => if p =? "repo" then Some d else None) in
  main w ["repo"] =
    mk_outcome
      ("# Repository Context" ++ nl ++ nl
       ++ "## File System Location" ++ nl ++ nl
       ++ "/home/u/repo" ++ nl ++ nl
       ++ "Not a git repository" ++ nl ++ nl
       ++ "## Structure" ++ nl
       ++ fence ++ nl ++ "a.txt" ++ nl ++ "b.txt" ++ nl ++ fence ++ nl ++ nl
       ++ "## File Contents" ++ nl ++ nl
       ++ "### File: repo/a.txt" ++ nl ++ fence ++ nl)
      EmptyString 0.
Proof. vm_compute. reflexivity. Qed.

Lemma length_replicate (k : nat) (c : ascii) :
  String.length (replicate k c) = k.
Proof. induction k; simpl; congruence. Qed.

(** The cap is inclusive: exactly 16384 bytes are shown whole, 16385 are
    cut. *)
Example print_file_at_cap :
  let c := replicate (N.to_nat 16384) "x"%char in
  str (out (print_file "f" (Regular true c) fresh)) =
    "### File: f" ++ nl ++ fence ++ nl ++ c ++ nl ++ fence ++ nl ++ nl.
Proof. vm_compute. reflexivity. Qed.

Example print_file_above_cap :
  let c := replicate (N.to_nat 16385) "x"%char in
  str (out (print_file "f" (Regular true c) fresh)) =
    "### File: f" ++ nl ++ fence ++ nl ++ replicate (N.to_nat 16384) "x"%char ++ nl
    ++ "... (truncated; original 16385 bytes, showing first 16384 bytes)"
    ++ nl ++ fence ++ nl ++ nl.
Proof. vm_compute. reflexivity. Qed.

(** The entries of every directory are put in ascending order of their
    names before the loop that recurses into them, in [collect_files]
    and in [print_structure] alike; and for a directory that enumerates
    [b.txt] before [a.txt], the structure block and the flattened file
    list have [a.txt] before [b.txt], and [print_file] is run on [a.txt]
    before it is run on [b.txt]. *)
Theorem entries_sorted_before_recursion :
  forall (es : list entry) (root : path) (files : list located)
         (o : ostringstream) (depth : nat),
    (exists l,
        Permutation es l /\ listing_sorted l
        /\ collect_files root (Directory es) files =
             fold_left (collect_entry collect_files root) l files
        /\ print_structure o root (Directory es) depth =
             fold_left (structure_entry print_structure root depth) l o)
    /\ (forall (ra rb : bool) (ca cb : string) (cwd : path) (s : streams),
           let fa := Regular ra ca in
           let fb := Regular rb cb in
           let d := Directory [("b.txt", fb); ("a.txt", fa)] in
           let indent := spaces (depth * 2) in
           print_structure o root d depth =
             put (put (put (put (put (put o indent) "a.txt") nl)
                                indent) "b.txt") nl
           /\ collect_files root d files =
                (files ++ [(Path.append root "a.txt", fa);
                           (Path.append root "b.txt", fb)])%list
           /\ print_dir cwd root d s =
                print_file (Path.append root "b.txt") fb
                  (print_file (Path.append root "a.txt") fa
                     (s << ("# Repository Context" ++ nl ++ nl)
                        << ("## File System Location" ++ nl ++ nl)
                        << generic_string (absolute cwd root) << (nl ++ nl)
                        << ("Not a git repository" ++ nl ++ nl)
                        << ("## Structure" ++ nl) << (fence ++ nl)
                        << EmptyString << "a.txt" << nl
                        << EmptyString << "b.txt" << nl
                        << (fence ++ nl ++ nl)
                        << ("## File Contents" ++ nl ++ nl)))).
Proof.
  intros es root files o depth. split.
  - exists (sort_entries es). repeat split.
    + apply sort_entries_perm.
    + apply sort_entries_sorted.
    + now rewrite collect_files_eq.
    + now rewrite print_structure_eq.
  - intros ra rb ca cb cwd s fa fb d indent. repeat split.
    unfold d, fa, fb. rewrite collect_files_eq. simpl.
    unfold collect_entry, entry_path. simpl.
    now rewrite <- app_assoc.
Qed.

(** ** The argument loop *)

Section Arguments.

Lemma no_dash_not_flag (arg : string) :
  starts_with_dash arg = false ->
  is_help arg = false /\ is_version arg = false.
Proof.
  unfold is_help, is_version.
  destruct arg as [|c arg]; simpl; [auto|].
  intros ->. auto.
Qed.

Lemma parse_args_cons_positional (arg : string) (rest paths : list string) :
  starts_with_dash arg = false ->
  parse_args (arg :: rest) paths = parse_args rest (paths ++ [arg])%list.
Proof.
  intros H. destruct (no_dash_not_flag _ H) as [Hh Hv].
  simpl. now rewrite Hh, Hv, H.
Qed.





Lemma main_single_target (w : world) (p : string) :
  starts_with_dash p = false ->
  main w [p] =
    let s := process_target w fresh p in
    mk_outcome (str (out s)) (cerr s) 0.
Proof.
  intros H. unfold main.
  now rewrite parse_args_cons_positional by assumption.
Qed.

End Arguments.

(** Claim C6.  When the sole argument is a path that names nothing, the
    run writes to the error stream the diagnostic made of the path
    followed by [is not a valid directory or file] and a line end,
    writes nothing to standard output (no file-contents section), and
    returns status 0; and wherever such a path stands in the list of
    targets, the loop goes on with the targets after it, the report
    buffer untouched. *)
Theorem missing_path_is_not_fatal :
  forall (w : world) (p : string),
    starts_with_dash p = false ->
    exists_type (path_status (lookup w p)) = false ->
    main w [p] =
      mk_outcome EmptyString
        (p ++ "is not a valid directory or file" ++ String "010"%char EmptyString)
        0
    /\ (forall (rest : list string) (s : streams),
           process_targets w (p :: rest) s =
             process_targets w rest
               (mk_streams (out s)
                  (cerr s ++ p ++ "is not a valid directory or file"
                     ++ String "010"%char EmptyString))).
Proof.
  intros w p Hp Hmissing.
  assert (Hstep : forall s,
             process_target w s p =
               mk_streams (out s)
                 (cerr s ++ p ++ "is not a valid directory or file"
                    ++ String "010"%char EmptyString)).
  { intros s. unfold process_target, pexists.
    destruct (lookup w p) as [n|]; [|reflexivity].
    simpl in Hmissing. now rewrite Hmissing. }
  split.
  - rewrite main_single_target by assumption. now rewrite Hstep.
  - intros rest s. unfold process_targets. simpl. now rewrite Hstep.
Qed.

Lemma missing_path_is_not_fatal_witness :
  main empty_world ["nowhere"] =
    mk_outcome EmptyString
      ("nowhere" ++ "is not a valid directory or file"
         ++ String "010"%char EmptyString)
      0
  /\ (forall (rest : list string) (s : streams),
         process_targets empty_world ("nowhere" :: rest) s =
           process_targets empty_world rest
             (mk_streams (out s)
                (cerr s ++ "nowhere" ++ "is not a valid directory or file"
                   ++ String "010"%char EmptyString))).
Proof.
  apply (missing_path_is_not_fatal empty_world "nowhere"); reflexivity.
Defined.

(** Claim C9.  A target that exists and is neither a directory nor a
    regular file is passed over in silence: nothing is written to the
    error stream, nothing to the report, and the loop goes on with the
    targets after it. *)
Theorem other_target_is_skipped_silently :
  forall (w : world) (p : string) (n : node),
    starts_with_dash p = false ->
    lookup w p = Some n ->
    status n = other ->
    main w [p] = mk_outcome EmptyString EmptyString 0
    /\ (forall (rest : list string) (s : streams),
           process_targets w (p :: rest) s = process_targets w rest s).
Proof.
  intros w p n Hp Hn Hother.
  assert (Hstep : forall s, process_target w s p = s).
  { intros s. unfold process_target, pexists, is_dir, is_file.
    now rewrite Hn, Hother. }
  split.
  - rewrite main_single_target by assumption. now rewrite Hstep.
  - intros rest s. unfold process_targets. simpl. now rewrite Hstep.
Qed.

Lemma other_target_is_skipped_silently_witness :
  main socket_world ["/run/app.sock"] = mk_outcome EmptyString EmptyString 0
  /\ (forall (rest : list string) (s : streams),
         process_targets socket_world ("/run/app.sock" :: rest) s =
           process_targets socket_world rest s).
Proof.
  apply (other_target_is_skipped_silently socket_world "/run/app.sock" Special);
    reflexivity.
Defined.







(** ** The head of a directory report *)

Section ReportHead.

Lemma extends_print_structure_rec (fuel : nat) :
  forall o root n depth,
    extends o (print_structure_rec fuel o root n depth).
Proof.
  induction fuel as [|fuel IH]; intros o root n depth; simpl;
    [apply extends_refl|].
  destruct (negb (exists_type (status n))); [apply extends_refl|].
  destruct (is_directory_type (status n)); [|apply extends_refl].
  apply extends_fold_left. intros o' e _. unfold structure_entry.
  destruct (entry_is_directory e).
  - eapply extends_trans; [|apply IH].
    rewrite !put_put. apply extends_put.
  - destruct (entry_is_regular_file e); [|apply extends_refl].
    rewrite !put_put. apply extends_put.
Qed.

Lemma extends_print_file (p : path) (f : node) (s : streams) :
  extends (out s) (out (print_file p f s)).
Proof.
  unfold print_file, to_out, to_cerr.
  destruct (open_read f) as [c|]; cbn [out cerr].
  - destruct (file_size f <=? kMaxBytes)%N; cbn [out cerr];
      repeat (eapply extends_trans; [|apply extends_put]);
      try (eapply extends_trans; [|apply extends_put_rdbuf]);
      repeat (eapply extends_trans; [|apply extends_put]);
      apply extends_refl.
  - repeat (eapply extends_trans; [|apply extends_put]).
    apply extends_refl.
Qed.

Lemma extends_print_files (files : list located) :
  forall s, extends (out s) (out (print_files files s)).
Proof.
  induction files as [|f files IH]; intros s; simpl;
    [apply extends_refl|].
  eapply extends_trans; [apply extends_print_file|apply IH].
Qed.

Lemma print_dir_head (cwd p : path) (d : node) (s : streams) :
  failed (out s) = false ->
  exists rest,
    str (out (print_dir cwd p d s)) =
      str (out s) ++ location_text cwd p ++ vcs_text d
      ++ "## Structure" ++ nl ++ rest.
Proof.
  intros Hgood.
  set (h := mk_oss (str (out s) ++ location_text cwd p ++ vcs_text d
                      ++ "## Structure" ++ nl) false).
  assert (Hext : extends h (out (print_dir cwd p d s))).
  { unfold print_dir.
    assert (Hh : out (s << ("# Repository Context" ++ nl ++ nl)
                        << ("## File System Location" ++ nl ++ nl)
                        << generic_string (absolute cwd p) << (nl ++ nl)
                        << vcs_text d << ("## Structure" ++ nl)) = h).
    { unfold to_out. cbn [out cerr]. rewrite !put_put.
      rewrite put_good by assumption. unfold h, location_text.
      now rewrite !app_assoc_s. }
    rewrite <- Hh. clear Hh h.
    replace (if is_git_repo d
             then s << ("# Repository Context" ++ nl ++ nl)
                    << ("## File System Location" ++ nl ++ nl)
                    << generic_string (absolute cwd p) << (nl ++ nl)
                    << ("## Git Info" ++ nl ++ nl)
             else s << ("# Repository Context" ++ nl ++ nl)
                    << ("## File System Location" ++ nl ++ nl)
                    << generic_string (absolute cwd p) << (nl ++ nl)
                    << ("Not a git repository" ++ nl ++ nl))
      with (s << ("# Repository Context" ++ nl ++ nl)
              << ("## File System Location" ++ nl ++ nl)
              << generic_string (absolute cwd p) << (nl ++ nl)
              << vcs_text d)
      by (unfold vcs_text; now destruct (is_git_repo d)).
    set (s1 := s << ("# Repository Context" ++ nl ++ nl)
                 << ("## File System Location" ++ nl ++ nl)
                 << generic_string (absolute cwd p) << (nl ++ nl)
                 << vcs_text d << ("## Structure" ++ nl)).
    assert (Hs2 : extends (out s1)
              (out (mk_streams
                      (print_structure (out (s1 << (fence ++ nl))) p d 0)
                      (cerr (s1 << (fence ++ nl)))
                    << (fence ++ nl ++ nl)))).
    { unfold to_out; cbn [out cerr].
      eapply extends_trans; [|apply extends_put].
      eapply extends_trans; [|apply extends_print_structure_rec].
      apply extends_put. }
    destruct (collect_files p d []); [exact Hs2|].
    eapply extends_trans; [exact Hs2|].
    eapply extends_trans; [|apply extends_print_files].
    unfold to_out; cbn [out cerr]. apply extends_put. }
  destruct Hext as [rest Hrest]. exists rest.
  rewrite Hrest. unfold h. cbn [str]. now rewrite !app_assoc_s.
Qed.

End ReportHead.

(** ** The location and version-control subsections *)

Section GitRepo.

Lemma is_git_repo_iff (d : node) :
  is_git_repo d = true <->
  exists g, child ".git" (readdir d) = Some g /\ status g = directory.
Proof.
  unfold is_git_repo. destruct (child ".git" (readdir d)) as [g|]; simpl.
  - split.
    + intros H. exists g. split; [reflexivity|].
      destruct (status g); simpl in H; try discriminate; reflexivity.
    + intros (g' & Hg & Hs). injection Hg as <-. now rewrite Hs.
  - split; [discriminate|]. intros (g & Hg & _). discriminate.
Qed.

Lemma absolute_is_absolute (cwd p : path) :
  is_absolute cwd = true -> is_absolute (absolute cwd p) = true.
Proof.
  intros Hcwd. unfold absolute.
  destruct (is_absolute p) eqn:Hp; [assumption|].
  unfold Path.append. rewrite Hp.
  destruct cwd as [|c cwd]; [discriminate|].
  destruct (has_filename (String c cwd)); exact Hcwd.
Qed.

End GitRepo.

(** Claim C4, as stated, fails: for a directory without [.git] the
    report has the line [Not a git repository], in which the text
    [not a repository] does not occur. *)
Lemma vcs_notice_is_not_the_quoted_text :
  is_git_repo (Directory []) = false
  /\ contains "not a repository" (stdout (main plain_dir_world [])) = false
  /\ contains "Not a git repository" (stdout (main plain_dir_world [])) = true.
Proof. repeat split. Qed.

(** Claim C4, amended.  In the report of a directory root, the location
    subsection is followed by the version-control subsection: the
    heading [## Git Info] when [.git] directly under the root is a
    directory, and otherwise the line [Not a git repository]; the
    structure subsection comes next. *)
Theorem vcs_subsection :
  forall (cwd p : path) (d : node) (s : streams),
    failed (out s) = false ->
    (exists rest,
        str (out (print_dir cwd p d s)) =
          str (out s) ++ location_text cwd p
          ++ (if is_git_repo d
              then "## Git Info" ++ nl ++ nl
              else "Not a git repository" ++ nl ++ nl)
          ++ "## Structure" ++ nl ++ rest)
    /\ (is_git_repo d = true <->
        exists g, child ".git" (readdir d) = Some g /\ status g = directory).
Proof.
  intros cwd p d s Hgood. split.
  - exact (print_dir_head cwd p d s Hgood).
  - apply is_git_repo_iff.
Qed.

Lemma vcs_subsection_witness :
  (exists rest,
      str (out (print_dir "/home/u" "repo"
                  (Directory [(".git", Directory [])]) fresh)) =
        str (out fresh) ++ location_text "/home/u" "repo"
        ++ (if is_git_repo (Directory [(".git", Directory [])])
            then "## Git Info" ++ nl ++ nl
            else "Not a git repository" ++ nl ++ nl)
        ++ "## Structure" ++ nl ++ rest)
  /\ (is_git_repo (Directory [(".git", Directory [])]) = true <->
      exists g, child ".git" (readdir (Directory [(".git", Directory [])]))
                = Some g /\ status g = directory).
Proof.
  apply (vcs_subsection "/home/u" "repo"
           (Directory [(".git", Directory [])]) fresh).
  reflexivity.
Defined.

(** ** The generic format of a path *)

Section GenericFormat.

Lemma is_absolute_generic_string (p : path) :
  is_absolute (generic_string p) = is_absolute p.
Proof.
  induction p as [|c r IH]; simpl; [reflexivity|].
  destruct (Ascii.eqb c separator) eqn:Hc; simpl; [|exact Hc].
  destruct (is_absolute r) eqn:Hr; simpl; [|exact Hc].
  now rewrite IH.
Qed.

Lemma no_double_separator_generic_string (p : path) :
  no_double_separator (generic_string p) = true.
Proof.
  induction p as [|c r IH]; simpl; [reflexivity|].
  destruct (Ascii.eqb c separator && is_absolute r) eqn:Hcr;
    [exact IH|].
  simpl. now rewrite is_absolute_generic_string, Hcr, IH.
Qed.

Lemma nonempty_components_generic_string (p : path) :
  forall cur,
    filter (fun c => negb (c =? EmptyString))
           (components_from cur (generic_string p)) =
    filter (fun c => negb (c =? EmptyString)) (components_from cur p).
Proof.
  induction p as [|c r IH]; intros cur; [reflexivity|].
  cbn [generic_string components_from].
  destruct (Ascii.eqb c separator) eqn:Hc.
  - destruct (is_absolute r) eqn:Hr; cbn [andb].
    + rewrite IH. destruct r as [|c' r']; [discriminate|].
      cbn [is_absolute] in Hr. cbn [components_from]. rewrite Hr.
      cbn [filter]. reflexivity.
    + cbn [components_from]. rewrite Hc. cbn [filter]. now rewrite IH.
  - cbn [andb components_from]. rewrite Hc. apply IH.
Qed.

Lemma names_generic_string (p : path) : names (generic_string p) = names p.
Proof. apply nonempty_components_generic_string. Qed.

Lemma components_from_separator (a b : string) :
  forall cur,
    components_from cur (a ++ String separator b) =
      (components_from cur a ++ components_from EmptyString b)%list.
Proof.
  induction a as [|c a IH]; intros cur; simpl; [reflexivity|].
  destruct (Ascii.eqb c separator); [now rewrite IH|apply IH].
Qed.

Lemma names_append (cwd p : path) :
  is_absolute p = false ->
  names (Path.append cwd p) = (names cwd ++ names p)%list.
Proof.
  intros Hp. unfold Path.append, names, components. rewrite Hp.
  destruct (has_filename cwd) eqn:Hf.
  - now rewrite components_from_separator, filter_app.
  - destruct cwd as [|c cwd]; [reflexivity|].
    unfold has_filename in Hf. apply negb_false_iff in Hf.
    destruct (ends_with_separator_split _ Hf) as [a ->].
    rewrite app_assoc_s. cbn [append].
    rewrite !components_from_separator, !filter_app. cbn.
    now rewrite components_from_separator, filter_app, app_nil_r.
Qed.

End GenericFormat.

(** Claim C5, as stated, fails: the path written is the one
    [fs::absolute] returns, which is not canonical; for the default
    target [.] it ends in a [.] component. *)
Lemma location_is_not_canonical :
  stdout (main plain_dir_world []) =
    "# Repository Context" ++ nl ++ nl
    ++ "## File System Location" ++ nl ++ nl
    ++ "/home/u/." ++ nl ++ nl
    ++ "Not a git repository" ++ nl ++ nl
    ++ "## Structure" ++ nl ++ fence ++ nl ++ fence ++ nl ++ nl
  /\ has_dot_component "/home/u/." = true.
Proof. split; reflexivity. Qed.

(** Claim C5, amended.  The file-system-location subsection of the
    report of a directory root holds the root's absolute path in generic
    format: its names are those of the root when the root is absolute,
    and otherwise those of the current directory followed by those of
    the root, written with single forward slashes.  No name is resolved
    or removed ([.], [..] and symbolic links stay), so that the path is
    absolute and is not canonical. *)
Theorem location_subsection :
  forall (cwd p : path) (d : node) (s : streams),
    failed (out s) = false ->
    (exists rest,
        str (out (print_dir cwd p d s)) =
          str (out s) ++ "# Repository Context" ++ nl ++ nl
          ++ "## File System Location" ++ nl ++ nl
          ++ generic_string (absolute cwd p) ++ nl ++ nl ++ rest)
    /\ names (generic_string (absolute cwd p)) =
         (if is_absolute p then names p else (names cwd ++ names p)%list)
    /\ no_double_separator (generic_string (absolute cwd p)) = true
    /\ (is_absolute cwd = true ->
        is_absolute (generic_string (absolute cwd p)) = true).
Proof.
  intros cwd p d s Hgood. split; [|split; [|split]].
  - destruct (print_dir_head cwd p d s Hgood) as [rest Hrest].
    exists (vcs_text d ++ "## Structure" ++ nl ++ rest).
    rewrite Hrest. unfold location_text. now rewrite !app_assoc_s.
  - rewrite names_generic_string. unfold absolute.
    destruct (is_absolute p) eqn:Hp; [reflexivity|].
    now apply names_append.
  - apply no_double_separator_generic_string.
  - intros Hcwd. rewrite is_absolute_generic_string.
    now apply absolute_is_absolute.
Qed.

Lemma location_subsection_witness :
  (exists rest,
      str (out (print_dir "/home//u" "./repo" (Directory []) fresh)) =
        str (out fresh) ++ "# Repository Context" ++ nl ++ nl
        ++ "## File System Location" ++ nl ++ nl
        ++ generic_string (absolute "/home//u" "./repo") ++ nl ++ nl ++ rest)
  /\ names (generic_string (absolute "/home//u" "./repo")) =
       (if is_absolute "./repo" then names "./repo"
        else (names "/home//u" ++ names "./repo")%list)
  /\ no_double_separator (generic_string (absolute "/home//u" "./repo"))
     = true
  /\ (is_absolute "/home//u" = true ->
      is_absolute (generic_string (absolute "/home//u" "./repo")) = true).
Proof.
  apply (location_subsection "/home//u" "./repo" (Directory []) fresh).
  reflexivity.
Defined.

(** Repeated separators are written once, and [.] stays. *)
Example location_of_doubled_separator :
  generic_string (absolute "/home//u" "./repo//sub") = "/home/u/./repo/sub".
Proof. reflexivity. Qed.

(** ** Entries that are neither directories nor regular files *)

Section Ignored.

Lemma status_prune (n : node) : status (prune n) = status n.
Proof. induction n; simpl; auto. Qed.

Lemma prune_regular (n : node) : status n = regular -> prune n = n.
Proof.
  induction n as [r c|es|t IH| |]; simpl; try discriminate; auto.
  intros H. now rewrite IH.
Qed.

Lemma readdir_prune (n : node) :
  readdir (prune n) = map prune_entry (filter kept (readdir n)).
Proof.
  induction n as [r c|es|t IH| |]; simpl; auto.
  induction es as [|[k c] es IHes]; [reflexivity|].
  unfold kept in *. cbn [filter].
  destruct (entry_is_ignored (k, c)); simpl; [exact IHes|].
  now rewrite IHes.
Qed.

Lemma insert_entry_map (g : entry -> entry) :
  (forall e, fst (g e) = fst e) ->
  forall e l, insert_entry (g e) (map g l) = map g (insert_entry e l).
Proof.
  intros Hg e l. induction l as [|h t IH]; simpl; [reflexivity|].
  unfold entry_lt. rewrite !Hg.
  destruct (fst e <? fst h); simpl; [reflexivity|now rewrite IH].
Qed.

Lemma sort_entries_map (g : entry -> entry) :
  (forall e, fst (g e) = fst e) ->
  forall l, sort_entries (map g l) = map g (sort_entries l).
Proof.
  intros Hg l. induction l as [|e l IH]; simpl; [reflexivity|].
  now rewrite IH, insert_entry_map.
Qed.

Lemma sorted_readdir_prune (n : node) :
  sort_entries (readdir (prune n)) =
    map prune_entry (filter kept (sort_entries (readdir n))).
Proof.
  rewrite readdir_prune, sort_entries_map by reflexivity.
  now rewrite filter_sort_entries.
Qed.

Lemma fold_left_map_filter (A : Type) (f f' : A -> entry -> A)
    (g : entry -> entry) (keep : entry -> bool) (l : list entry) :
  (forall a e, keep e = false -> f' a e = a) ->
  (forall a e, keep e = true -> f a (g e) = f' a e) ->
  forall a, fold_left f (map g (filter keep l)) a = fold_left f' l a.
Proof.
  intros Hdrop Hkeep. induction l as [|e l IH]; intros a; simpl;
    [reflexivity|].
  destruct (keep e) eqn:He; simpl.
  - now rewrite Hkeep, IH.
  - now rewrite Hdrop, IH.
Qed.

Lemma entry_is_directory_prune (e : entry) :
  entry_is_directory (prune_entry e) = entry_is_directory e.
Proof. unfold entry_is_directory. simpl. now rewrite status_prune. Qed.

Lemma entry_is_regular_file_prune (e : entry) :
  entry_is_regular_file (prune_entry e) = entry_is_regular_file e.
Proof. unfold entry_is_regular_file. simpl. now rewrite status_prune. Qed.

Lemma collect_files_rec_prune (fuel : nat) :
  forall n root files,
    collect_files_rec fuel root (prune n) files =
      collect_files_rec fuel root n files.
Proof.
  induction fuel as [|fuel IH]; intros n root files; [reflexivity|].
  simpl. rewrite status_prune.
  destruct (status n) eqn:Hs; simpl; try reflexivity.
  - now rewrite (prune_regular n Hs).
  - rewrite sorted_readdir_prune.
    apply fold_left_map_filter; intros a e He; unfold collect_entry.
    + unfold kept, entry_is_ignored in He.
      apply negb_false_iff, andb_prop in He as [Hd Hr].
      apply negb_true_iff in Hd, Hr. now rewrite Hd, Hr.
    + rewrite entry_is_directory_prune, entry_is_regular_file_prune.
      destruct (entry_is_directory e); [apply IH|].
      destruct (entry_is_regular_file e) eqn:Hr; [|reflexivity].
      unfold prune_entry, entry_path. simpl.
      rewrite prune_regular; [reflexivity|].
      unfold entry_is_regular_file in Hr.
      now destruct (status (snd e)).
Qed.

Lemma print_structure_rec_prune (fuel : nat) :
  forall o n root depth,
    print_structure_rec fuel o root (prune n) depth =
      print_structure_rec fuel o root n depth.
Proof.
  induction fuel as [|fuel IH]; intros o n root depth; [reflexivity|].
  simpl. rewrite status_prune.
  destruct (status n) eqn:Hs; simpl; try reflexivity.
  rewrite sorted_readdir_prune.
  apply fold_left_map_filter; intros a e He; unfold structure_entry.
  - unfold kept, entry_is_ignored in He.
    apply negb_false_iff, andb_prop in He as [Hd Hr].
    apply negb_true_iff in Hd, Hr. now rewrite Hd, Hr.
  - rewrite entry_is_directory_prune, entry_is_regular_file_prune.
    destruct (entry_is_directory e); [apply IH|reflexivity].
Qed.

(** What [prune] removes and what it keeps. *)
Lemma prune_drops_ignored_entry (es1 es2 : list entry) (e : entry) :
  entry_is_ignored e = true ->
  prune (Directory (es1 ++ e :: es2)) = prune (Directory (es1 ++ es2)).
Proof.
  intros He. simpl. f_equal.
  induction es1 as [|[k c] es1 IH]; simpl.
  - destruct e as [k c]. now rewrite He.
  - now rewrite IH.
Qed.

Lemma prune_leaves_nothing_ignored (n : node) (e : entry) :
  In e (readdir (prune n)) -> entry_is_ignored e = false.
Proof.
  rewrite readdir_prune, in_map_iff. intros (e0 & <- & He0).
  apply filter_In in He0 as [_ Hk]. unfold kept in Hk.
  apply negb_true_iff in Hk. unfold entry_is_ignored in *.
  now rewrite entry_is_directory_prune, entry_is_regular_file_prune.
Qed.

End Ignored.

(** Claim C8, as stated, fails for symbolic links: the walks test the
    type an entry has once links are followed, so a link to a regular
    file is listed in the structure block and collected as a file. *)
Lemma symlink_to_file_is_listed :
  print_structure oss_empty "r"
    (Directory [("link", Symlink (Regular true "x"))]) 0
  = mk_oss ("link" ++ nl) false
  /\ collect_files "r" (Directory [("link", Symlink (Regular true "x"))]) []
     = [("r/link", Symlink (Regular true "x"))]
  /\ print_structure oss_empty "r"
       (Directory [("link", Symlink (Regular true "x"))]) 0
     <> print_structure oss_empty "r" (Directory []) 0.
Proof. repeat split. discriminate. Qed.

(** ** Symbolic links are followed *)

Section Links.

Lemma status_resolve (n : node) : status (resolve n) = status n.
Proof. induction n; simpl; auto. Qed.

Lemma status_by_resolved_kind (n : node) :
  status n =
    match resolve n with
    | Regular _ _ => regular
    | Directory _ => directory
    | Special => other
    | _ => not_found
    end.
Proof. induction n; simpl; auto. Qed.

Lemma readdir_resolve (n : node) :
  readdir (resolve n) = map resolve_entry (readdir n).
Proof.
  induction n as [r c|es|t IH| |]; simpl; auto.
  induction es as [|[k c] es IHes]; simpl; [reflexivity|].
  now rewrite IHes.
Qed.

Lemma open_read_resolve (n : node) : open_read (resolve n) = open_read n.
Proof. induction n; simpl; auto. Qed.

Lemma file_size_resolve (n : node) : file_size (resolve n) = file_size n.
Proof. induction n; simpl; auto. Qed.

Lemma print_file_resolve (p : path) (f : node) (s : streams) :
  print_file p (resolve f) s = print_file p f s.
Proof.
  unfold print_file. now rewrite open_read_resolve, file_size_resolve.
Qed.

Lemma print_files_resolve (files : list located) :
  forall s, print_files (map resolve_located files) s = print_files files s.
Proof.
  unfold print_files.
  induction files as [|f files IH]; intros s; simpl; [reflexivity|].
  now rewrite print_file_resolve, IH.
Qed.

Lemma entry_is_directory_resolve (e : entry) :
  entry_is_directory (resolve_entry e) = entry_is_directory e.
Proof. unfold entry_is_directory. simpl. now rewrite status_resolve. Qed.

Lemma entry_is_regular_file_resolve (e : entry) :
  entry_is_regular_file (resolve_entry e) = entry_is_regular_file e.
Proof. unfold entry_is_regular_file. simpl. now rewrite status_resolve. Qed.

Lemma sorted_readdir_resolve (n : node) :
  sort_entries (readdir (resolve n)) =
    map resolve_entry (sort_entries (readdir n)).
Proof. now rewrite readdir_resolve, sort_entries_map. Qed.

Lemma collect_files_rec_resolve (fuel : nat) :
  forall n root files,
    collect_files_rec fuel root (resolve n) (map resolve_located files) =
      map resolve_located (collect_files_rec fuel root n files).
Proof.
  induction fuel as [|fuel IH]; intros n root files; [reflexivity|].
  simpl. rewrite status_resolve.
  destruct (status n) eqn:Hs; simpl; try reflexivity.
  - now rewrite map_app.
  - rewrite sorted_readdir_resolve.
    generalize (sort_entries (readdir n)). intros l. revert files.
    induction l as [|e l IHl]; intros files; simpl; [reflexivity|].
    rewrite <- IHl. f_equal. unfold collect_entry.
    rewrite entry_is_directory_resolve, entry_is_regular_file_resolve.
    destruct (entry_is_directory e); [apply IH|].
    destruct (entry_is_regular_file e); [|reflexivity].
    now rewrite map_app.
Qed.

Lemma print_structure_rec_resolve (fuel : nat) :
  forall o n root depth,
    print_structure_rec fuel o root (resolve n) depth =
      print_structure_rec fuel o root n depth.
Proof.
  induction fuel as [|fuel IH]; intros o n root depth; [reflexivity|].
  simpl. rewrite status_resolve.
  destruct (status n) eqn:Hs; simpl; try reflexivity.
  rewrite sorted_readdir_resolve.
  generalize (sort_entries (readdir n)). intros l. revert o.
  induction l as [|e l IHl]; intros o; simpl; [reflexivity|].
  rewrite <- IHl. f_equal. unfold structure_entry.
  rewrite entry_is_directory_resolve, entry_is_regular_file_resolve.
  destruct (entry_is_directory e); [apply IH|reflexivity].
Qed.

Lemma collect_files_resolve (root : path) (n : node) :
  collect_files root (resolve n) [] =
    map resolve_located (collect_files root n []).
Proof.
  set (fuel := S (Nat.max (height n) (height (resolve n)))).
  at_fuel fuel. apply (collect_files_rec_resolve fuel n root []).
Qed.

Lemma print_structure_resolve (o : ostringstream) (root : path) (n : node)
    (depth : nat) :
  print_structure o root (resolve n) depth = print_structure o root n depth.
Proof.
  set (fuel := S (Nat.max (height n) (height (resolve n)))).
  at_fuel fuel. apply print_structure_rec_resolve.
Qed.

Lemma child_resolve (k : string) (es : list entry) :
  path_status (child k (map resolve_entry es)) = path_status (child k es).
Proof.
  induction es as [|[k0 c0] es IH]; simpl; [reflexivity|].
  destruct (k0 =? k); [|exact IH]. simpl. apply status_resolve.
Qed.

Lemma is_git_repo_resolve (d : node) :
  is_git_repo (resolve d) = is_git_repo d.
Proof.
  unfold is_git_repo. now rewrite readdir_resolve, child_resolve.
Qed.

Lemma print_dir_resolve (cwd p : path) (d : node) (s : streams) :
  print_dir cwd p (resolve d) s = print_dir cwd p d s.
Proof.
  unfold print_dir.
  rewrite is_git_repo_resolve, collect_files_resolve.
  destruct (is_git_repo d); rewrite print_structure_resolve;
    (destruct (collect_files p d []) as [|f files]; [reflexivity|]);
    change (map resolve_located (f :: files))
      with (resolve_located f :: map resolve_located files);
    cbv iota;
    change (resolve_located f :: map resolve_located files)
      with (map resolve_located (f :: files));
    apply print_files_resolve.
Qed.

Lemma ignored_by_resolved_kind (e : entry) :
  entry_is_ignored e =
    match resolve (snd e) with
    | Special | Dangling => true
    | _ => false
    end.
Proof.
  unfold entry_is_ignored, entry_is_directory, entry_is_regular_file.
  rewrite (status_by_resolved_kind (snd e)).
  assert (Hnolink : forall n t, resolve n <> Symlink t).
  { induction n; simpl; try discriminate; auto. }
  destruct (resolve (snd e)) eqn:Hr; try reflexivity.
  now apply Hnolink in Hr.
Qed.

End Links.

(** Claim C8, amended.  An entry that, once symbolic links are
    followed, is neither a directory nor a regular file (a device, a
    socket, a FIFO, a dangling link, a link that leads to one of these)
    is ignored by both walks: the structure output and the flattened
    file list are those of the tree from which every such entry has been
    removed, at every level.  A link that leads to a regular file or to
    a directory is treated as what it leads to, under the name of the
    link: both walks and the whole report of a root are those of the
    tree in which every link is replaced by its target.  (Neither walk
    has access to the error stream.) *)
Theorem other_entries_are_ignored :
  forall (n : node) (root : path) (files : list located)
         (o : ostringstream) (depth : nat),
    (forall e : entry,
        entry_is_ignored e =
          match resolve (snd e) with
          | Special | Dangling => true
          | _ => false
          end)
    /\ collect_files root (prune n) files = collect_files root n files
    /\ print_structure o root (prune n) depth = print_structure o root n depth
    /\ print_structure o root (resolve n) depth =
         print_structure o root n depth
    /\ map fst (collect_files root (resolve n) []) =
         map fst (collect_files root n [])
    /\ (forall (cwd : path) (s : streams),
           print_dir cwd root (resolve n) s = print_dir cwd root n s).
Proof.
  intros n root files o depth.
  split; [exact ignored_by_resolved_kind|].
  split; [|split; [|split; [|split]]].
  - set (fuel := S (Nat.max (height n) (height (prune n)))).
    at_fuel fuel. apply collect_files_rec_prune.
  - set (fuel := S (Nat.max (height n) (height (prune n)))).
    at_fuel fuel. apply print_structure_rec_prune.
  - apply print_structure_resolve.
  - rewrite collect_files_resolve, map_map. reflexivity.
  - intros cwd s. apply print_dir_resolve.
Qed.

(** A tree with links and the same tree without them give one report. *)
Example report_of_linked_tree :
  resolve linked_tree =
    Directory [("cur", Directory [("v.js", Regular true "1;")]);
               ("lost", Dangling);
               ("readme", Regular true "hi");
               (".git", Directory [])]
  /\ str (out (print_dir "/srv" "site" linked_tree fresh)) =
       "# Repository Context" ++ nl ++ nl
       ++ "## File System Location" ++ nl ++ nl
       ++ "/srv/site" ++ nl ++ nl
       ++ "## Git Info" ++ nl ++ nl
       ++ "## Structure" ++ nl ++ fence ++ nl
       ++ ".git/" ++ nl ++ "cur/" ++ nl ++ "  v.js" ++ nl ++ "readme" ++ nl
       ++ fence ++ nl ++ nl
       ++ "## File Contents" ++ nl ++ nl
       ++ "### File: site/cur/v.js" ++ nl ++ fence ++ "javascript" ++ nl
       ++ "1;" ++ nl ++ fence ++ nl ++ nl
       ++ "### File: site/readme" ++ nl ++ fence ++ nl
       ++ "hi" ++ nl ++ fence ++ nl ++ nl.
Proof. split; reflexivity. Qed.

(** The same, for one entry of one directory. *)
Corollary ignored_entry_does_not_appear :
  forall (es1 es2 : list entry) (e : entry) (root : path)
         (files : list located) (o : ostringstream) (depth : nat),
    entry_is_ignored e = true ->
    collect_files root (Directory (es1 ++ e :: es2)) files =
      collect_files root (Directory (es1 ++ es2)) files
    /\ print_structure o root (Directory (es1 ++ e :: es2)) depth =
         print_structure o root (Directory (es1 ++ es2)) depth.
Proof.
  intros es1 es2 e root files o depth He.
  pose proof (prune_drops_ignored_entry es1 es2 e He) as Hp.
  set (d1 := Directory (es1 ++ e :: es2)) in *.
  set (d2 := Directory (es1 ++ es2)) in *.
  set (fuel := S (Nat.max (height d1) (height d2))).
  split; at_fuel fuel.
  - rewrite <- (collect_files_rec_prune fuel d1), Hp.
    apply collect_files_rec_prune.
  - rewrite <- (print_structure_rec_prune fuel o d1), Hp.
    apply print_structure_rec_prune.
Qed.

(** ** Independence from the order of enumeration *)

Section Determinism.

Lemma same_tree_status (n : node) :
  forall n', same_tree n n' -> status n = status n'.
Proof.
  induction n as [r c|es|t IH| |]; intros n' H; inversion H; subst;
    simpl; auto.
Qed.

Lemma same_tree_regular (n : node) :
  forall n', same_tree n n' -> status n = regular -> n = n'.
Proof.
  induction n as [r c|es|t IH| |]; intros n' H; inversion H; subst;
    simpl; try discriminate; auto.
  intros Hs. f_equal. now apply IH.
Qed.

Lemma same_tree_readdir (n : node) :
  forall n', same_tree n n' ->
    exists mid, Permutation (readdir n) mid
                /\ Forall2 same_entry mid (readdir n').
Proof.
  induction n as [r c|es|t IH| |]; intros n' H; inversion H; subst; simpl;
    try (exists []; split; constructor); auto.
  exists mid. split; assumption.
Qed.

Lemma distinct_names_readdir (n : node) :
  distinct_names n ->
  NoDup (map fst (readdir n))
  /\ forall e, In e (readdir n) -> distinct_names (snd e).
Proof.
  induction n as [r c|es|t IH| |]; simpl; auto;
    try (intros _; split; [constructor|contradiction]).
  intros [Hnd Hall]. split; [assumption|].
  clear Hnd. induction es as [|[k c] es IHes]; simpl; [contradiction|].
  destruct Hall as [Hc Hall]. intros e [<-|Hin]; auto.
Qed.

Lemma sorted_listings_agree (n n' : node) :
  same_tree n n' -> distinct_names n ->
  Forall2 same_entry (sort_entries (readdir n)) (sort_entries (readdir n')).
Proof.
  intros Hsame Hdist.
  destruct (same_tree_readdir _ _ Hsame) as (mid & Hperm & Hall).
  destruct (distinct_names_readdir n Hdist) as [Hnd _].
  rewrite (sort_entries_order_irrelevant _ _ Hperm Hnd).
  apply sort_entries_Forall2; [|assumption].
  now intros a b [Hab _].
Qed.

Lemma fold_left_Forall2 (A B : Type) (R : B -> B -> Prop)
    (f g : A -> B -> A) (l l' : list B) :
  Forall2 R l l' ->
  (forall a e e', In e l -> R e e' -> f a e = g a e') ->
  forall a, fold_left f l a = fold_left g l' a.
Proof.
  induction 1 as [|x x' l l' Hx Hl IH]; intros Hfg a; simpl; [reflexivity|].
  rewrite (Hfg a x x') by (auto; now left).
  apply IH. intros a0 e e' He. apply Hfg. now right.
Qed.

Lemma distinct_names_sorted_entry (n : node) (e : entry) :
  distinct_names n -> In e (sort_entries (readdir n)) ->
  distinct_names (snd e).
Proof.
  intros Hdist He. apply in_sorted_readdir in He.
  now apply (distinct_names_readdir n Hdist).
Qed.

Lemma collect_files_rec_same (fuel : nat) :
  forall n n' root files,
    same_tree n n' -> distinct_names n ->
    collect_files_rec fuel root n files = collect_files_rec fuel root n' files.
Proof.
  induction fuel as [|fuel IH]; intros n n' root files Hsame Hdist;
    [reflexivity|].
  simpl. rewrite <- (same_tree_status _ _ Hsame).
  destruct (status n) eqn:Hs; simpl; try reflexivity.
  - now rewrite (same_tree_regular _ _ Hsame Hs).
  - apply fold_left_Forall2 with (R := same_entry);
      [now apply sorted_listings_agree|].
    intros a e e' He [Hname Hchild].
    unfold collect_entry, entry_is_directory, entry_is_regular_file,
      entry_path.
    rewrite <- Hname, <- (same_tree_status _ _ Hchild).
    destruct (status (snd e)) eqn:Hse; simpl; try reflexivity.
    + now rewrite (same_tree_regular _ _ Hchild Hse).
    + apply IH; [assumption|].
      eapply distinct_names_sorted_entry; eauto.
Qed.

Lemma print_structure_rec_same (fuel : nat) :
  forall o n n' root depth,
    same_tree n n' -> distinct_names n ->
    print_structure_rec fuel o root n depth =
      print_structure_rec fuel o root n' depth.
Proof.
  induction fuel as [|fuel IH]; intros o n n' root depth Hsame Hdist;
    [reflexivity|].
  simpl. rewrite <- (same_tree_status _ _ Hsame).
  destruct (status n) eqn:Hs; simpl; try reflexivity.
  apply fold_left_Forall2 with (R := same_entry);
    [now apply sorted_listings_agree|].
  intros a e e' He [Hname Hchild].
  unfold structure_entry, entry_is_directory, entry_is_regular_file,
    entry_path.
  rewrite <- Hname, <- (same_tree_status _ _ Hchild).
  destruct (status (snd e)) eqn:Hse; simpl; try reflexivity.
  apply IH; [assumption|].
  eapply distinct_names_sorted_entry; eauto.
Qed.

Lemma collect_files_same (n n' : node) (root : path) (files : list located) :
  same_tree n n' -> distinct_names n ->
  collect_files root n files = collect_files root n' files.
Proof.
  intros Hsame Hdist.
  set (fuel := S (Nat.max (height n) (height n'))).
  at_fuel fuel. now apply collect_files_rec_same.
Qed.

Lemma print_structure_same (o : ostringstream) (n n' : node) (root : path)
    (depth : nat) :
  same_tree n n' -> distinct_names n ->
  print_structure o root n depth = print_structure o root n' depth.
Proof.
  intros Hsame Hdist.
  set (fuel := S (Nat.max (height n) (height n'))).
  at_fuel fuel. now apply print_structure_rec_same.
Qed.

(** Looking a name up does not depend on the order of enumeration. *)
Lemma child_In (k : string) (c : node) (l : list entry) :
  NoDup (map fst l) -> In (k, c) l -> child k l = Some c.
Proof.
  induction l as [|[k0 c0] l IH]; simpl; [contradiction|].
  intros Hnd Hin. inversion Hnd as [|? ? Hnotin Hnd']; subst.
  destruct Hin as [Heq|Hin].
  - injection Heq as -> ->. now rewrite String.eqb_refl.
  - destruct (String.eqb_spec k0 k) as [->|Hne]; [|now apply IH].
    exfalso. apply Hnotin.
    change k with (fst (k, c)). now apply in_map.
Qed.

Lemma child_Some (k : string) (c : node) (l : list entry) :
  child k l = Some c -> In (k, c) l.
Proof.
  induction l as [|[k0 c0] l IH]; simpl; [discriminate|].
  destruct (String.eqb_spec k0 k) as [->|Hne].
  - intros H. injection H as ->. now left.
  - intros H. right. now apply IH.
Qed.

Lemma child_None (k : string) (l : list entry) :
  child k l = None <-> ~ In k (map fst l).
Proof.
  induction l as [|[k0 c0] l IH]; simpl; [tauto|].
  destruct (String.eqb_spec k0 k) as [->|Hne].
  - split; [discriminate|]. intros H. exfalso. apply H. now left.
  - rewrite IH. tauto.
Qed.

Lemma child_perm (k : string) (l l' : list entry) :
  NoDup (map fst l) -> Permutation l l' -> child k l = child k l'.
Proof.
  intros Hnd Hperm.
  destruct (child k l) as [c|] eqn:Hc; symmetry.
  - apply child_In.
    + eapply Permutation_NoDup; [|exact Hnd]. now apply Permutation_map.
    + eapply Permutation_in; [exact Hperm|]. now apply child_Some.
  - apply child_None. apply child_None in Hc. intros Hin. apply Hc.
    eapply Permutation_in; [|exact Hin].
    now apply Permutation_sym, Permutation_map.
Qed.

Lemma child_Forall2 (k : string) (l l' : list entry) :
  Forall2 same_entry l l' ->
  path_status (child k l) = path_status (child k l').
Proof.
  induction 1 as [|[k0 c0] [k1 c1] l l' [Hname Hchild] Hl IH]; simpl;
    [reflexivity|].
  simpl in Hname, Hchild. subst k1.
  destruct (k0 =? k); [|exact IH].
  simpl. now apply same_tree_status.
Qed.

Lemma is_git_repo_same (n n' : node) :
  same_tree n n' -> distinct_names n -> is_git_repo n = is_git_repo n'.
Proof.
  intros Hsame Hdist. unfold is_git_repo.
  destruct (same_tree_readdir _ _ Hsame) as (mid & Hperm & Hall).
  destruct (distinct_names_readdir n Hdist) as [Hnd _].
  now rewrite (child_perm ".git" _ _ Hnd Hperm), (child_Forall2 ".git" _ _ Hall).
Qed.

Lemma print_dir_same (cwd p : path) (d d' : node) (s : streams) :
  same_tree d d' -> distinct_names d ->
  print_dir cwd p d s = print_dir cwd p d' s.
Proof.
  intros Hsame Hdist. unfold print_dir.
  rewrite (is_git_repo_same _ _ Hsame Hdist).
  rewrite (collect_files_same _ _ p [] Hsame Hdist).
  destruct (is_git_repo d');
    now rewrite (print_structure_same _ _ _ p 0 Hsame Hdist).
Qed.

Lemma process_target_same (w w' : world) (s : streams) (p : string) :
  same_world w w' -> world_distinct_names w ->
  process_target w s p = process_target w' s p.
Proof.
  intros [Hcwd Hobj] Hdist. unfold process_target, pexists, is_dir, is_file.
  specialize (Hobj p). specialize (Hdist p).
  destruct (lookup w p) as [n|], (lookup w' p) as [n'|]; simpl in Hobj;
    try contradiction; [|reflexivity].
  rewrite <- (same_tree_status _ _ Hobj), <- Hcwd.
  destruct (status n) eqn:Hs; simpl; try reflexivity.
  - now rewrite (same_tree_regular _ _ Hobj Hs).
  - apply print_dir_same; auto.
Qed.

Lemma main_same (w w' : world) (args : list string) :
  same_world w w' -> world_distinct_names w -> main w args = main w' args.
Proof.
  intros Hsame Hdist. unfold main.
  destruct (parse_args args []) as [| | |paths]; try reflexivity.
  assert (Hloop : forall l s, process_targets w l s = process_targets w' l s).
  { induction l as [|p l IH]; intros s; [reflexivity|].
    unfold process_targets in *. simpl.
    rewrite (process_target_same _ _ s p Hsame Hdist). apply IH. }
  now rewrite Hloop.
Qed.

End Determinism.

(** The two listings of the example repository show one tree. *)
Lemma run_1_run_2_same_world : same_world run_1 run_2.
Proof.
  split; [reflexivity|]. intros p. simpl.
  destruct (p =? "repo"); simpl; [|exact I].
  unfold repo_listing_1, repo_listing_2.
  apply same_directory
    with (mid := [("a.txt", Regular true "ay");
                  ("b.txt", Regular true "bee");
                  ("src", Directory [("z.cpp", Regular true "int z;");
                                     ("a.js", Regular true "let a;")])]).
  - apply Permutation_sym.
    exact (Permutation_cons_append
             [("b.txt", Regular true "bee");
              ("src", Directory [("z.cpp", Regular true "int z;");
                                 ("a.js", Regular true "let a;")])]
             ("a.txt", Regular true "ay")).
  - repeat constructor; simpl.
    apply same_directory
      with (mid := [("a.js", Regular true "let a;");
                    ("z.cpp", Regular true "int z;")]).
    + apply perm_swap.
    + repeat constructor.
Qed.

Lemma run_1_distinct_names : world_distinct_names run_1.
Proof.
  intros p n. simpl. destruct (p =? "repo"); [|discriminate].
  intros H. injection H as <-. simpl.
  repeat split; repeat constructor; simpl; intuition discriminate.
Qed.

(** Claim C3.  Two runs with the same arguments over the same unchanged
    tree, from the same current directory, end with the same output,
    byte for byte, on standard output (and on the error stream, with the
    same status), in whatever order the file system enumerates the
    entries of each directory in either run. *)
Theorem runs_are_deterministic :
  forall (w w' : world) (args : list string),
    same_world w w' ->
    world_distinct_names w ->
    stdout (main w args) = stdout (main w' args)
    /\ main w args = main w' args.
Proof.
  intros w w' args Hsame Hdist.
  now rewrite (main_same w w' args Hsame Hdist).
Qed.

Lemma runs_are_deterministic_witness :
  stdout (main run_1 ["repo"]) = stdout (main run_2 ["repo"])
  /\ main run_1 ["repo"] = main run_2 ["repo"].
Proof.
  exact (runs_are_deterministic run_1 run_2 ["repo"]
           run_1_run_2_same_world run_1_distinct_names).
Defined.

(** The order of enumeration differs between the two runs of the
    example, and the reports do not. *)
Example run_1_report :
  repo_listing_1 <> repo_listing_2
  /\ stdout (main run_1 ["repo"]) =
       "# Repository Context" ++ nl ++ nl
       ++ "## File System Location" ++ nl ++ nl
       ++ "/home/u/repo" ++ nl ++ nl
       ++ "Not a git repository" ++ nl ++ nl
       ++ "## Structure" ++ nl ++ fence ++ nl
       ++ "a.txt" ++ nl ++ "b.txt" ++ nl ++ "src/" ++ nl
       ++ "  a.js" ++ nl ++ "  z.cpp" ++ nl ++ fence ++ nl ++ nl
       ++ "## File Contents" ++ nl ++ nl
       ++ "### File: repo/a.txt" ++ nl ++ fence ++ nl
       ++ "ay" ++ nl ++ fence ++ nl ++ nl
       ++ "### File: repo/b.txt" ++ nl ++ fence ++ nl
       ++ "bee" ++ nl ++ fence ++ nl ++ nl
       ++ "### File: repo/src/a.js" ++ nl ++ fence ++ "javascript" ++ nl
       ++ "let a;" ++ nl ++ fence ++ nl ++ nl
       ++ "### File: repo/src/z.cpp" ++ nl ++ fence ++ "cpp" ++ nl
       ++ "int z;" ++ nl ++ fence ++ nl ++ nl.
Proof. split; [discriminate|reflexivity]. Qed.

(** * Further properties of the program *)

(** ** Writers compose *)

Section Writers.

Lemma oss_eta (o : ostringstream) : mk_oss (str o) (failed o) = o.
Proof. now destruct o. Qed.

Lemma resume_empty (r : ostringstream) : resume oss_empty r = r.
Proof. unfold resume, oss_cat. simpl. apply oss_eta. Qed.

Lemma resume_nothing (o : ostringstream) : resume o oss_empty = o.
Proof.
  unfold resume, oss_cat. destruct o as [t b]. simpl.
  destruct b; [reflexivity|]. now rewrite app_nil_r_s.
Qed.

Lemma resume_assoc (o a b : ostringstream) :
  resume (resume o a) b = resume o (resume a b).
Proof.
  unfold resume, oss_cat.
  destruct o as [so [|]], a as [sa [|]]; simpl; try reflexivity.
  now rewrite app_assoc_s.
Qed.

Lemma resume_failed (o r : ostringstream) :
  failed o = true -> resume o r = o.
Proof. unfold resume. now intros ->. Qed.

Lemma resume_good (o r : ostringstream) :
  failed o = false -> resume o r = oss_cat o r.
Proof. unfold resume. now intros ->. Qed.

Lemma failed_resume (o r : ostringstream) :
  failed (resume o r) = failed o || failed r.
Proof. unfold resume. destruct (failed o) eqn:Ho; simpl; auto. Qed.

Lemma appends_id : appends (fun o => o).
Proof. intros o. now rewrite resume_nothing. Qed.

Lemma appends_put (t : string) : appends (fun o => put o t).
Proof. intros o. unfold put, resume, oss_cat. simpl. reflexivity. Qed.

Lemma appends_put_rdbuf (c : string) : appends (fun o => put_rdbuf o c).
Proof.
  intros o. unfold put_rdbuf, resume, oss_cat. simpl.
  destruct (failed o); [reflexivity|].
  destruct c; simpl; [now rewrite app_nil_r_s|reflexivity].
Qed.

Lemma appends_compose (f g : ostringstream -> ostringstream) :
  appends f -> appends g -> appends (fun o => g (f o)).
Proof.
  intros Hf Hg o.
  rewrite (Hg (f o)), (Hf o), resume_assoc.
  now rewrite <- (Hg (f oss_empty)).
Qed.

Lemma appends_fold_left (A : Type)
    (step : ostringstream -> A -> ostringstream) (l : list A) :
  (forall e, In e l -> appends (fun o => step o e)) ->
  appends (fun o => fold_left step l o).
Proof.
  induction l as [|e l IH]; intros Hstep; simpl; [apply appends_id|].
  apply (appends_compose (fun o => step o e) (fun o => fold_left step l o)).
  - apply Hstep. now left.
  - apply IH. intros e' He'. apply Hstep. now right.
Qed.

Lemma appends_structure_entry
    (recur : ostringstream -> path -> node -> nat -> ostringstream)
    (root : path) (depth : nat) (e : entry) :
  (forall r n d, appends (fun o => recur o r n d)) ->
  appends (fun o => structure_entry recur root depth o e).
Proof.
  intros Hrecur. unfold structure_entry.
  destruct (entry_is_directory e).
  - apply (appends_compose
             (fun o => put (put (put o (spaces (depth * 2))) (fst e))
                           ("/" ++ nl))
             (fun o => recur o (entry_path root e) (snd e) (depth + 1)));
      [|apply Hrecur].
    intros o. rewrite !put_put. apply appends_put.
  - destruct (entry_is_regular_file e); [|apply appends_id].
    intros o. rewrite !put_put. apply appends_put.
Qed.

Lemma appends_print_structure_rec (fuel : nat) :
  forall root n depth,
    appends (fun o => print_structure_rec fuel o root n depth).
Proof.
  induction fuel as [|fuel IH]; intros root n depth; simpl;
    [apply appends_id|].
  destruct (negb (exists_type (status n))); [apply appends_id|].
  destruct (is_directory_type (status n)); [|apply appends_id].
  apply appends_fold_left. intros e _.
  apply appends_structure_entry. intros r m d. apply IH.
Qed.

Lemma appends_print_structure (root : path) (n : node) (depth : nat) :
  appends (fun o => print_structure o root n depth).
Proof. apply appends_print_structure_rec. Qed.

(** [print_structure] leaves the failure state as it finds it. *)
Lemma failed_print_structure_rec (fuel : nat) :
  forall o root n depth,
    failed (print_structure_rec fuel o root n depth) = failed o.
Proof.
  induction fuel as [|fuel IH]; intros o root n depth; simpl;
    [reflexivity|].
  destruct (negb (exists_type (status n))); [reflexivity|].
  destruct (is_directory_type (status n)); [|reflexivity].
  generalize (sort_entries (readdir n)). intros l. revert o.
  induction l as [|e l IHl]; intros o; simpl; [reflexivity|].
  rewrite IHl. unfold structure_entry.
  assert (Hput : forall o t, failed (put o t) = failed o).
  { intros o' t. unfold put. now destruct (failed o') eqn:Ho. }
  destruct (entry_is_directory e); [now rewrite IH, !Hput|].
  destruct (entry_is_regular_file e); [now rewrite !Hput|reflexivity].
Qed.

End Writers.

Section Segments.

Lemma segment_id : segment (fun s => s).
Proof.
  intros s. split; simpl.
  - now rewrite resume_nothing.
  - now rewrite app_nil_r_s.
Qed.

Lemma segment_to_out (t : string) : segment (fun s => s << t).
Proof.
  intros s. split; simpl.
  - apply (appends_put t).
  - now rewrite app_nil_r_s.
Qed.

Lemma segment_to_cerr (t : string) : segment (fun s => s <<! t).
Proof.
  intros s. split; simpl; [|reflexivity].
  now rewrite resume_nothing.
Qed.

Lemma segment_lift (f : ostringstream -> ostringstream) :
  appends f -> segment (fun s => mk_streams (f (out s)) (cerr s)).
Proof.
  intros Hf s. split; simpl; [apply Hf|].
  now rewrite app_nil_r_s.
Qed.

Lemma segment_compose (F G : streams -> streams) :
  segment F -> segment G -> segment (fun s => G (F s)).
Proof.
  intros HF HG s.
  destruct (HG (F s)) as [Ho Hc]. destruct (HF s) as [Ho' Hc'].
  destruct (HG (F fresh)) as [Ho'' Hc''].
  destruct (HF fresh) as [_ Hc3]. simpl in Hc3.
  split.
  - rewrite Ho, Ho', resume_assoc. now rewrite <- Ho''.
  - rewrite Hc, Hc', Hc'', app_assoc_s. reflexivity.
Qed.

Lemma segment_fold_left (A : Type) (step : streams -> A -> streams)
    (l : list A) :
  (forall e, In e l -> segment (fun s => step s e)) ->
  segment (fun s => fold_left step l s).
Proof.
  induction l as [|e l IH]; intros Hstep; simpl; [apply segment_id|].
  apply (segment_compose (fun s => step s e) (fun s => fold_left step l s)).
  - apply Hstep. now left.
  - apply IH. intros e' He'. apply Hstep. now right.
Qed.

Lemma segment_print_file (p : path) (f : node) :
  segment (print_file p f).
Proof.
  unfold print_file.
  apply (segment_compose
           (fun s =>
              match open_read f with
              | None =>
                  s << "### File: " << p << nl << open_fence (extension p)
                    <<! ("(Could not open file)" ++ nl)
              | Some content =>
                  if (file_size f <=? kMaxBytes)%N
                  then mk_streams
                         (put_rdbuf
                            (out (s << "### File: " << p << nl
                                    << open_fence (extension p))) content)
                         (cerr (s << "### File: " << p << nl
                                  << open_fence (extension p))) << nl
                  else s << "### File: " << p << nl
                         << open_fence (extension p)
                         << read_prefix content
                         << truncation_notice (file_size f)
              end)
           (fun s => s << (fence ++ nl ++ nl)));
    [|apply segment_to_out].
  assert (Hhead : segment (fun s => s << "### File: " << p << nl
                                      << open_fence (extension p))).
  { repeat (apply (segment_compose _ (fun s => s << _));
            [|apply segment_to_out]).
    apply segment_id. }
  destruct (open_read f) as [content|].
  - destruct (file_size f <=? kMaxBytes)%N.
    + apply (segment_compose
               (fun s => mk_streams
                           (put_rdbuf
                              (out (s << "### File: " << p << nl
                                      << open_fence (extension p))) content)
                           (cerr (s << "### File: " << p << nl
                                    << open_fence (extension p))))
               (fun s => s << nl)); [|apply segment_to_out].
      apply (segment_compose
               (fun s => s << "### File: " << p << nl
                           << open_fence (extension p))
               (fun s => mk_streams (put_rdbuf (out s) content) (cerr s)));
        [exact Hhead|].
      apply (segment_lift (fun o => put_rdbuf o content)).
      apply appends_put_rdbuf.
    + apply (segment_compose
               (fun s => s << "### File: " << p << nl
                           << open_fence (extension p)
                           << read_prefix content)
               (fun s => s << truncation_notice (file_size f)));
        [|apply segment_to_out].
      apply (segment_compose
               (fun s => s << "### File: " << p << nl
                           << open_fence (extension p))
               (fun s => s << read_prefix content));
        [exact Hhead|apply segment_to_out].
  - apply (segment_compose
             (fun s => s << "### File: " << p << nl
                         << open_fence (extension p))
             (fun s => s <<! ("(Could not open file)" ++ nl)));
      [exact Hhead|apply segment_to_cerr].
Qed.

Lemma segment_print_files (files : list located) :
  segment (print_files files).
Proof.
  unfold print_files.
  apply (segment_fold_left located
           (fun s f => print_file (fst f) (snd f) s)).
  intros f _. apply segment_print_file.
Qed.

Lemma segment_print_dir (cwd p : path) (d : node) :
  segment (print_dir cwd p d).
Proof.
  set (head := fun s : streams =>
         s << ("# Repository Context" ++ nl ++ nl)
           << ("## File System Location" ++ nl ++ nl)
           << generic_string (absolute cwd p) << (nl ++ nl)
           << vcs_text d << ("## Structure" ++ nl) << (fence ++ nl)).
  set (body := fun s : streams =>
         mk_streams (print_structure (out s) p d 0) (cerr s)
           << (fence ++ nl ++ nl)).
  set (rest := fun s : streams =>
         match collect_files p d [] with
         | [] => s
         | _ => print_files (collect_files p d [])
                  (s << ("## File Contents" ++ nl ++ nl))
         end).
  assert (Hshape : forall s,
             print_dir cwd p d s = rest (body (head s))).
  { intros s. unfold print_dir, rest, body, head, vcs_text.
    now destruct (is_git_repo d). }
  assert (Hseg : segment (fun s => rest (body (head s)))).
  { apply (segment_compose (fun s => body (head s)) rest).
    - apply (segment_compose head body).
      + unfold head.
        repeat (apply (segment_compose _ (fun s => s << _));
                [|apply segment_to_out]).
        apply segment_id.
      + unfold body.
        apply (segment_compose
                 (fun s => mk_streams (print_structure (out s) p d 0) (cerr s))
                 (fun s => s << (fence ++ nl ++ nl)));
          [|apply segment_to_out].
        apply (segment_lift (fun o => print_structure o p d 0)).
        apply appends_print_structure.
    - unfold rest. destruct (collect_files p d []) as [|f files];
        [apply segment_id|].
      apply (segment_compose
               (fun s => s << ("## File Contents" ++ nl ++ nl))
               (print_files (f :: files)));
        [apply segment_to_out|apply segment_print_files]. }
  intros s. rewrite (Hshape s), (Hshape fresh). apply Hseg.
Qed.

Lemma segment_process_target (w : world) (p : string) :
  segment (fun s => process_target w s p).
Proof.
  unfold process_target.
  destruct (lookup w p) as [n|]; [|apply segment_to_cerr].
  destruct (negb (pexists n)); [apply segment_to_cerr|].
  destruct (is_dir n); [apply segment_print_dir|].
  destruct (is_file n); [|apply segment_id].
  apply (segment_compose
           (fun s => s << ("## File Contents" ++ nl ++ nl))
           (print_file p n));
    [apply segment_to_out|apply segment_print_file].
Qed.

Lemma segment_process_targets (w : world) (paths : list string) :
  segment (process_targets w paths).
Proof.
  unfold process_targets.
  apply (segment_fold_left string (process_target w)).
  intros p _. apply segment_process_target.
Qed.

End Segments.

(** ** What [print_file] writes *)

Section Rendering.

Lemma open_read_size (f : node) :
  forall c, open_read f = Some c -> file_size f = N.of_nat (String.length c).
Proof.
  induction f as [r c0|es|t IH| |]; simpl; intros c H; try discriminate; auto.
  destruct r; [|discriminate]. now injection H as ->.
Qed.

Lemma failed_put (o : ostringstream) (t : string) :
  failed (put o t) = failed o.
Proof. unfold put. now destruct (failed o) eqn:Ho. Qed.

Lemma failed_render (p : path) (f : node) :
  failed (out (print_file p f fresh)) = empty_readable f.
Proof.
  unfold print_file, empty_readable, to_out, to_cerr.
  destruct (open_read f) as [c|] eqn:Hopen; cbn [out cerr].
  - rewrite (open_read_size f c Hopen).
    destruct (N.of_nat (String.length c) <=? kMaxBytes)%N eqn:Hsz;
      cbn [out cerr]; rewrite !failed_put.
    + unfold put_rdbuf. rewrite !failed_put. simpl. now destruct c.
    + simpl. destruct c; [|reflexivity].
      simpl in Hsz. discriminate.
  - now rewrite !failed_put.
Qed.

Lemma failed_print_files (files : list located) :
  forall s, failed (out (print_files files s)) =
              failed (out s) || existsb (fun f => empty_readable (snd f)) files.
Proof.
  induction files as [|f files IH]; intros s; simpl.
  - now rewrite orb_false_r.
  - change (fold_left (fun s0 f0 => print_file (fst f0) (snd f0) s0) files
              (print_file (fst f) (snd f) s))
      with (print_files files (print_file (fst f) (snd f) s)).
    rewrite IH.
    destruct (segment_print_file (fst f) (snd f) s) as [-> _].
    rewrite failed_resume, failed_render. now rewrite orb_assoc.
Qed.

Lemma cerr_render (p : path) (f : node) :
  cerr (print_file p f fresh) = open_diagnostic f.
Proof.
  unfold print_file, open_diagnostic, to_out, to_cerr.
  destruct (open_read f) as [c|]; cbn [out cerr]; [|reflexivity].
  now destruct (file_size f <=? kMaxBytes)%N.
Qed.

Lemma cerr_print_files (files : list located) :
  forall s, cerr (print_files files s) =
              cerr s ++ join (map (fun f => open_diagnostic (snd f)) files).
Proof.
  induction files as [|f files IH]; intros s; simpl.
  - now rewrite app_nil_r_s.
  - change (fold_left (fun s0 f0 => print_file (fst f0) (snd f0) s0) files
              (print_file (fst f) (snd f) s))
      with (print_files files (print_file (fst f) (snd f) s)).
    rewrite IH.
    destruct (segment_print_file (fst f) (snd f) s) as [_ ->].
    now rewrite cerr_render, app_assoc_s.
Qed.

Lemma out_print_files_good (files : list located) :
  forall s,
    failed (out s) = false ->
    Forall (fun f => empty_readable (snd f) = false) files ->
    out (print_files files s) =
      mk_oss (str (out s) ++ join (map (fun f => str (render f)) files)) false.
Proof.
  induction files as [|f files IH]; intros s Hgood Hall; simpl.
  - rewrite app_nil_r_s, <- Hgood. now rewrite oss_eta.
  - inversion Hall as [|? ? Hf Hall']; subst.
    change (fold_left (fun s0 f0 => print_file (fst f0) (snd f0) s0) files
              (print_file (fst f) (snd f) s))
      with (print_files files (print_file (fst f) (snd f) s)).
    assert (Hout : out (print_file (fst f) (snd f) s) =
                     mk_oss (str (out s) ++ str (render f)) false).
    { destruct (segment_print_file (fst f) (snd f) s) as [-> _].
      rewrite resume_good by assumption. unfold oss_cat, render.
      now rewrite failed_render, Hf. }
    rewrite IH; [|now rewrite Hout|assumption].
    rewrite Hout. simpl. now rewrite app_assoc_s.
Qed.

End Rendering.

(** Property X1. A file that can be opened, is not empty and has at most
    [kMaxBytes] bytes is written whole between the fences, also when it is
    reached through symbolic links; the error stream is untouched and the
    buffer stays good. *)
Theorem print_file_small_file_whole :
  forall (p : path) (f : node) (c : string) (s : streams),
    failed (out s) = false ->
    open_read f = Some c ->
    c <> EmptyString ->
    (N.of_nat (String.length c) <= kMaxBytes)%N ->
    print_file p f s =
      mk_streams
        (mk_oss (str (out s) ++ file_header p ++ c ++ nl ++ fence ++ nl ++ nl)
                false)
        (cerr s).
Proof.
  intros p f c s Hgood Hopen Hne Hsz.
  unfold print_file, to_out, file_header. rewrite Hopen.
  rewrite (open_read_size f c Hopen).
  apply N.leb_le in Hsz. rewrite Hsz. cbn [out cerr].
  rewrite put_rdbuf_nonempty by assumption.
  rewrite !put_put, put_good by assumption.
  now rewrite !app_assoc_s.
Qed.

Lemma print_file_small_file_whole_witness :
  print_file "docs/link.md" (Symlink (Regular true "# Title")) fresh =
    mk_streams
      (mk_oss (str (out fresh) ++ file_header "docs/link.md" ++ "# Title"
                 ++ nl ++ fence ++ nl ++ nl)
              false)
      (cerr fresh).
Proof.
  apply (print_file_small_file_whole "docs/link.md"
           (Symlink (Regular true "# Title")) "# Title" fresh).
  - reflexivity.
  - reflexivity.
  - discriminate.
  - vm_compute. discriminate.
Defined.

(** Property X2. Of a file that can be opened and has more than [kMaxBytes]
    bytes, exactly the first [kMaxBytes] bytes are written, cut wherever
    that falls, followed by a notice that gives the size of the file and the
    number [kMaxBytes]. *)
Theorem print_file_large_file_truncated :
  forall (p : path) (f : node) (c : string) (s : streams),
    failed (out s) = false ->
    open_read f = Some c ->
    (kMaxBytes < N.of_nat (String.length c))%N ->
    print_file p f s =
      mk_streams
        (mk_oss (str (out s) ++ file_header p ++ read_prefix c
                   ++ nl ++ "... (truncated; original "
                   ++ show_N (N.of_nat (String.length c))
                   ++ " bytes, showing first 16384 bytes)" ++ nl
                   ++ fence ++ nl ++ nl)
                false)
        (cerr s)
    /\ String.length (read_prefix c) = N.to_nat 16384
    /\ exists rest, c = read_prefix c ++ rest.
Proof.
  intros p f c s Hgood Hopen Hsz. split; [|split].
  - unfold print_file, to_out, file_header. rewrite Hopen.
    rewrite (open_read_size f c Hopen).
    apply N.leb_gt in Hsz. rewrite Hsz. cbn [out cerr].
    rewrite !put_put, put_good by assumption.
    unfold truncation_notice.
    change (show_N kMaxBytes) with "16384".
    now rewrite !app_assoc_s.
  - unfold read_prefix.
    destruct (substring_prefix (N.to_nat kMaxBytes) c) as (rest & _ & Hl).
    rewrite Hl. change kMaxBytes with 16384%N in *. lia.
  - unfold read_prefix.
    destruct (substring_prefix (N.to_nat kMaxBytes) c) as (rest & Hc & _).
    now exists rest.
Qed.

Lemma print_file_large_file_truncated_witness :
  print_file "big.bin" (Regular true (replicate (N.to_nat 16385) "x"%char))
    fresh =
    mk_streams
      (mk_oss (str (out fresh) ++ file_header "big.bin"
                 ++ read_prefix (replicate (N.to_nat 16385) "x"%char)
                 ++ nl ++ "... (truncated; original "
                 ++ show_N (N.of_nat (String.length
                                        (replicate (N.to_nat 16385) "x"%char)))
                 ++ " bytes, showing first 16384 bytes)" ++ nl
                 ++ fence ++ nl ++ nl)
              false)
      (cerr fresh)
  /\ String.length (read_prefix (replicate (N.to_nat 16385) "x"%char))
     = N.to_nat 16384
  /\ exists rest,
      replicate (N.to_nat 16385) "x"%char =
        read_prefix (replicate (N.to_nat 16385) "x"%char) ++ rest.
Proof.
  apply (print_file_large_file_truncated "big.bin"
           (Regular true (replicate (N.to_nat 16385) "x"%char))
           (replicate (N.to_nat 16385) "x"%char) fresh).
  - reflexivity.
  - reflexivity.
  - vm_compute. reflexivity.
Defined.

(** Property X3. A file that cannot be opened costs one line on the error
    stream and leaves an empty fenced block in the report; the report buffer
    is left in the state it was in, so the files after it are still written. *)
Theorem print_file_unopenable_file :
  forall (p : path) (f : node) (s : streams),
    open_read f = None ->
    print_file p f s =
      mk_streams (put (out s) (file_header p ++ fence ++ nl ++ nl))
                 (cerr s ++ "(Could not open file)" ++ nl)
    /\ failed (out (print_file p f s)) = failed (out s).
Proof.
  intros p f s Hopen.
  assert (H : print_file p f s =
                mk_streams (put (out s) (file_header p ++ fence ++ nl ++ nl))
                           (cerr s ++ "(Could not open file)" ++ nl)).
  { unfold print_file, to_out, to_cerr, file_header. rewrite Hopen.
    cbn [out cerr]. rewrite !put_put. now rewrite !app_assoc_s. }
  split; [exact H|]. rewrite H. cbn [out]. apply failed_put.
Qed.

Lemma print_file_unopenable_file_witness :
  print_file "id_rsa" (Regular false "secret") fresh =
    mk_streams (put (out fresh) (file_header "id_rsa" ++ fence ++ nl ++ nl))
               (cerr fresh ++ "(Could not open file)" ++ nl)
  /\ failed (out (print_file "id_rsa" (Regular false "secret") fresh))
     = failed (out fresh).
Proof.
  apply (print_file_unopenable_file "id_rsa" (Regular false "secret") fresh).
  reflexivity.
Defined.

(** Property X4. The report buffer is in the failed state after [print_file]
    exactly when it was before or the file can be opened and is empty; no
    other file, readable or not, large or small, makes it fail. *)
Theorem print_file_fails_on_empty_file_only :
  forall (p : path) (f : node) (s : streams),
    failed (out (print_file p f s)) = failed (out s) || empty_readable f.
Proof.
  intros p f s.
  destruct (segment_print_file p f s) as [-> _].
  now rewrite failed_resume, failed_render.
Qed.

(** Property X5. Once the report buffer has failed, [print_file] adds
    nothing to it; the diagnostic for a file that cannot be opened is still
    written to the error stream. *)
Theorem print_file_on_failed_buffer :
  forall (p : path) (f : node) (s : streams),
    failed (out s) = true ->
    print_file p f s = mk_streams (out s) (cerr s ++ open_diagnostic f).
Proof.
  intros p f s Hfailed.
  destruct (segment_print_file p f s) as [Ho Hc].
  rewrite resume_failed in Ho by assumption.
  rewrite cerr_render in Hc.
  destruct (print_file p f s) as [o c]. simpl in *. now subst.
Qed.

Lemma print_file_on_failed_buffer_witness :
  print_file "b.txt" (Regular false "x")
    (print_file "a.txt" (Regular true EmptyString) fresh) =
    mk_streams (out (print_file "a.txt" (Regular true EmptyString) fresh))
               (cerr (print_file "a.txt" (Regular true EmptyString) fresh)
                ++ open_diagnostic (Regular false "x")).
Proof.
  apply (print_file_on_failed_buffer "b.txt" (Regular false "x")
           (print_file "a.txt" (Regular true EmptyString) fresh)).
  reflexivity.
Defined.

(** ** What [print_dir] writes *)

Section DirectoryReport.

Lemma structure_on_buffer (o : ostringstream) (root : path) (n : node)
    (depth : nat) :
  print_structure o root n depth =
    resume o (mk_oss (structure_text root n depth) false).
Proof.
  rewrite (appends_print_structure root n depth o).
  f_equal. unfold structure_text.
  rewrite <- (oss_eta (print_structure oss_empty root n depth)) at 1.
  f_equal. unfold print_structure. now rewrite failed_print_structure_rec.
Qed.

Lemma out_files_section (files : list located) (s : streams) :
  out (match files with
       | [] => s
       | _ => print_files files (s << ("## File Contents" ++ nl ++ nl))
       end) = resume (out s) (files_section files).
Proof.
  unfold files_section. destruct files as [|f files].
  - now rewrite resume_nothing.
  - apply (segment_compose
             (fun s => s << ("## File Contents" ++ nl ++ nl))
             (print_files (f :: files))
             (segment_to_out _) (segment_print_files _) s).
Qed.

Lemma put_on_good (t u : string) :
  put (mk_oss t false) u = mk_oss (t ++ u) false.
Proof. reflexivity. Qed.

Lemma resume_on_good (t : string) (r : ostringstream) :
  resume (mk_oss t false) r = mk_oss (t ++ str r) (failed r).
Proof. reflexivity. Qed.

Lemma out_print_dir_fresh (cwd p : path) (d : node) :
  out (print_dir cwd p d fresh) =
    oss_cat (mk_oss (report_head cwd p d) false)
            (files_section (collect_files p d [])).
Proof.
  unfold print_dir. rewrite out_files_section.
  unfold to_out, report_head, location_text, vcs_text, fresh, oss_empty.
  cbn [out cerr]. rewrite structure_on_buffer.
  destruct (is_git_repo d); cbn [out cerr];
    rewrite !put_on_good, resume_on_good, put_on_good, resume_on_good;
    unfold oss_cat; cbn [str failed]; f_equal;
    now rewrite !app_assoc_s.
Qed.

End DirectoryReport.

Section DirectoryReportParts.

Lemma cerr_print_dir_fresh (cwd p : path) (d : node) :
  cerr (print_dir cwd p d fresh) =
    join (map (fun f => open_diagnostic (snd f)) (collect_files p d [])).
Proof.
  unfold print_dir. destruct (collect_files p d []) as [|f files] eqn:Hfiles.
  - now destruct (is_git_repo d).
  - rewrite cerr_print_files. now destruct (is_git_repo d).
Qed.

Lemma failed_files_section (files : list located) :
  failed (files_section files) =
    existsb (fun f => empty_readable (snd f)) files.
Proof.
  unfold files_section. destruct files as [|f files]; [reflexivity|].
  now rewrite failed_print_files.
Qed.

Lemma str_files_section (files : list located) :
  Forall (fun f => empty_readable (snd f) = false) files ->
  str (files_section files) =
    match files with
    | [] => EmptyString
    | _ => "## File Contents" ++ nl ++ nl
           ++ join (map (fun f => str (render f)) files)
    end.
Proof.
  intros Hall. unfold files_section.
  destruct files as [|f files]; [reflexivity|].
  now rewrite out_print_files_good.
Qed.

End DirectoryReportParts.

(** Property X6. The report of a directory root is made of the heading, the
    location, the version-control line, the structure block and the
    file-contents section, in this order, after what the buffer holds
    already; a buffer that has failed is left as it is. *)
Theorem print_dir_layout :
  forall (cwd p : path) (d : node) (s : streams),
    out (print_dir cwd p d s) =
      resume (out s)
        (oss_cat
           (mk_oss
              ("# Repository Context" ++ nl ++ nl
               ++ "## File System Location" ++ nl ++ nl
               ++ generic_string (absolute cwd p) ++ nl ++ nl
               ++ vcs_text d
               ++ "## Structure" ++ nl ++ fence ++ nl
               ++ structure_text p d 0 ++ fence ++ nl ++ nl)
              false)
           (files_section (collect_files p d []))).
Proof.
  intros cwd p d s.
  destruct (segment_print_dir cwd p d s) as [-> _].
  rewrite out_print_dir_fresh. unfold report_head, location_text.
  now rewrite !app_assoc_s.
Qed.

(** Property X7. While [print_dir] runs, the error stream receives one
    diagnostic for each collected file that cannot be opened, in the order
    of the file list, and nothing else; this does not depend on the state of
    the report buffer. *)
Theorem print_dir_diagnostics :
  forall (cwd p : path) (d : node) (s : streams),
    cerr (print_dir cwd p d s) =
      cerr s
      ++ join (map (fun f => match open_read (snd f) with
                             | None => "(Could not open file)" ++ nl
                             | Some _ => EmptyString
                             end)
                   (collect_files p d [])).
Proof.
  intros cwd p d s.
  destruct (segment_print_dir cwd p d s) as [_ ->].
  now rewrite cerr_print_dir_fresh.
Qed.

(** Property X8. A directory root under which no file is collected (an empty
    directory, or one that holds only empty directories and entries that are
    ignored) gets a report that ends with the structure block: the heading
    of the file-contents section is not written. *)
Theorem print_dir_without_files :
  forall (cwd p : path) (d : node) (s : streams),
    failed (out s) = false ->
    collect_files p d [] = [] ->
    print_dir cwd p d s =
      mk_streams
        (mk_oss (str (out s) ++ location_text cwd p ++ vcs_text d
                   ++ "## Structure" ++ nl ++ fence ++ nl
                   ++ structure_text p d 0 ++ fence ++ nl ++ nl)
                false)
        (cerr s).
Proof.
  intros cwd p d s Hgood Hnone.
  destruct (segment_print_dir cwd p d s) as [Ho Hc].
  rewrite out_print_dir_fresh, resume_good in Ho by assumption.
  rewrite cerr_print_dir_fresh in Hc. rewrite Hnone in Ho, Hc.
  destruct (print_dir cwd p d s) as [o c]. simpl in Ho, Hc. subst o c.
  unfold oss_cat, report_head. simpl.
  now rewrite !app_nil_r_s.
Qed.

Lemma print_dir_without_files_witness :
  print_dir "/srv" "data"
    (Directory [("cache", Directory []); ("ctl", Special)]) fresh =
    mk_streams
      (mk_oss
         (str (out fresh) ++ location_text "/srv" "data"
            ++ vcs_text (Directory [("cache", Directory []); ("ctl", Special)])
            ++ "## Structure" ++ nl ++ fence ++ nl
            ++ structure_text "data"
                 (Directory [("cache", Directory []); ("ctl", Special)]) 0
            ++ fence ++ nl ++ nl)
         false)
      (cerr fresh).
Proof.
  apply (print_dir_without_files "/srv" "data"
           (Directory [("cache", Directory []); ("ctl", Special)]) fresh);
    reflexivity.
Defined.

(** Property X9. The report buffer is in the failed state after [print_dir]
    exactly when it was before or one of the collected files can be opened
    and is empty. *)
Theorem print_dir_fails_on_empty_file_only :
  forall (cwd p : path) (d : node) (s : streams),
    failed (out (print_dir cwd p d s)) =
      failed (out s)
      || existsb (fun f => empty_readable (snd f)) (collect_files p d []).
Proof.
  intros cwd p d s.
  destruct (segment_print_dir cwd p d s) as [-> _].
  rewrite failed_resume, out_print_dir_fresh. unfold oss_cat. cbn [failed].
  now rewrite failed_files_section.
Qed.

(** Property X10. When none of the collected files is an empty file that can
    be opened, the file-contents section holds its heading followed by what
    [print_file] writes for each collected file, in the order of the file
    list. *)
Theorem print_dir_file_contents :
  forall (cwd p : path) (d : node) (s : streams) (f : located)
         (files : list located),
    failed (out s) = false ->
    collect_files p d [] = f :: files ->
    Forall (fun f => empty_readable (snd f) = false) (f :: files) ->
    out (print_dir cwd p d s) =
      mk_oss
        (str (out s) ++ report_head cwd p d
           ++ "## File Contents" ++ nl ++ nl
           ++ join (map (fun f => str (out (print_file (fst f) (snd f) fresh)))
                        (f :: files)))
        false.
Proof.
  intros cwd p d s f files Hgood Hfiles Hall.
  destruct (segment_print_dir cwd p d s) as [-> _].
  rewrite out_print_dir_fresh, resume_good by assumption.
  rewrite Hfiles. unfold oss_cat. cbn [str failed].
  rewrite failed_files_section, str_files_section by assumption.
  replace (existsb (fun f0 => empty_readable (snd f0)) (f :: files))
    with false.
  - reflexivity.
  - symmetry. apply not_true_is_false. intros Hex.
    apply existsb_exists in Hex as (x & Hx & Hempty).
    rewrite Forall_forall in Hall. now rewrite (Hall x Hx) in Hempty.
Qed.

Lemma print_dir_file_contents_witness :
  out (print_dir "/home/u" "repo" repo_listing_2 fresh) =
    mk_oss
      (str (out fresh) ++ report_head "/home/u" "repo" repo_listing_2
         ++ "## File Contents" ++ nl ++ nl
         ++ join (map (fun f => str (out (print_file (fst f) (snd f) fresh)))
                      (("repo/a.txt", Regular true "ay")
                       :: [("repo/b.txt", Regular true "bee");
                           ("repo/src/a.js", Regular true "let a;");
                           ("repo/src/z.cpp", Regular true "int z;")])))
      false.
Proof.
  apply (print_dir_file_contents "/home/u" "repo" repo_listing_2 fresh
           ("repo/a.txt", Regular true "ay")
           [("repo/b.txt", Regular true "bee");
            ("repo/src/a.js", Regular true "let a;");
            ("repo/src/z.cpp", Regular true "int z;")]).
  - reflexivity.
  - reflexivity.
  - repeat constructor.
Defined.

(** ** What the two walks produce *)

Section Walks.

Lemma fold_left_append_only (A : Type)
    (step : list located -> A -> list located) (l : list A) :
  (forall files e, In e l -> step files e = (files ++ step [] e)%list) ->
  forall files,
    fold_left step l files = (files ++ flat_map (step []) l)%list.
Proof.
  induction l as [|e l IH]; intros Hstep files; simpl.
  - now rewrite app_nil_r.
  - rewrite IH by (intros; apply Hstep; now right).
    rewrite (Hstep files e) by now left.
    now rewrite <- app_assoc.
Qed.

Lemma collect_entry_append_only
    (recur : path -> node -> list located -> list located)
    (root : path) (files : list located) (e : entry) :
  (forall r n fs, recur r n fs = (fs ++ recur r n [])%list) ->
  collect_entry recur root files e =
    (files ++ collect_entry recur root [] e)%list.
Proof.
  intros Hrecur. unfold collect_entry.
  destruct (entry_is_directory e); [apply Hrecur|].
  destruct (entry_is_regular_file e); [reflexivity|].
  now rewrite app_nil_r.
Qed.

Lemma collect_files_rec_append_only (fuel : nat) :
  forall root n files,
    collect_files_rec fuel root n files =
      (files ++ collect_files_rec fuel root n [])%list.
Proof.
  induction fuel as [|fuel IH]; intros root n files; simpl.
  - now rewrite app_nil_r.
  - destruct (negb (exists_type (status n))); [now rewrite app_nil_r|].
    destruct (is_directory_type (status n)).
    + rewrite (fold_left_append_only entry
                 (collect_entry (collect_files_rec fuel) root)
                 (sort_entries (readdir n))
                 (fun fs e _ => collect_entry_append_only
                                  (collect_files_rec fuel) root fs e IH)
                 files).
      rewrite (fold_left_append_only entry
                 (collect_entry (collect_files_rec fuel) root)
                 (sort_entries (readdir n))
                 (fun fs e _ => collect_entry_append_only
                                  (collect_files_rec fuel) root fs e IH)
                 []).
      reflexivity.
    + destruct (is_regular_type (status n)); [reflexivity|].
      now rewrite app_nil_r.
Qed.

Lemma collect_files_append (root : path) (n : node) (files : list located) :
  collect_files root n files = (files ++ collect_files root n [])%list.
Proof. apply collect_files_rec_append_only. Qed.

Lemma collect_files_of_directory (root : path) (n : node)
    (files : list located) :
  status n = directory ->
  collect_files root n files =
    (files ++ flat_map (entry_files root) (sort_entries (readdir n)))%list.
Proof.
  intros Hdir. rewrite collect_files_eq, Hdir. simpl.
  apply (fold_left_append_only entry (collect_entry collect_files root)).
  intros fs e _. apply collect_entry_append_only.
  intros r m fs'. apply collect_files_append.
Qed.

Lemma collect_files_rec_regular (fuel : nat) :
  forall root n files,
    Forall (fun f => status (snd f) = regular) files ->
    Forall (fun f => status (snd f) = regular)
           (collect_files_rec fuel root n files).
Proof.
  induction fuel as [|fuel IH]; intros root n files Hfiles; simpl;
    [assumption|].
  destruct (status n) eqn:Hs; simpl; try assumption.
  - apply Forall_app. split; [assumption|]. now repeat constructor.
  - revert files Hfiles.
    induction (sort_entries (readdir n)) as [|e l IHl]; intros files Hfiles;
      simpl; [assumption|].
    apply IHl. unfold collect_entry.
    destruct (entry_is_directory e); [now apply IH|].
    destruct (entry_is_regular_file e) eqn:Hr; [|assumption].
    apply Forall_app. split; [assumption|].
    repeat constructor. simpl.
    unfold entry_is_regular_file in Hr. now destruct (status (snd e)).
Qed.

Lemma print_structure_rec_any_root (fuel : nat) :
  forall o root root' n depth,
    print_structure_rec fuel o root n depth =
      print_structure_rec fuel o root' n depth.
Proof.
  induction fuel as [|fuel IH]; intros o root root' n depth; simpl;
    [reflexivity|].
  destruct (negb (exists_type (status n))); [reflexivity|].
  destruct (is_directory_type (status n)); [|reflexivity].
  apply fold_left_ext_in. intros o' e _. unfold structure_entry.
  destruct (entry_is_directory e); [apply IH|reflexivity].
Qed.



End Walks.

(** Property X11. [collect_files] only adds to the vector it is given: the
    files found come after the ones already there, and are the ones it finds
    when it starts from an empty vector. *)
Theorem collect_files_appends :
  forall (root : path) (n : node) (files : list located),
    collect_files root n files = (files ++ collect_files root n [])%list.
Proof.
  intros root n files. unfold collect_files.
  apply collect_files_rec_append_only.
Qed.



(** Property X13. Whatever the root, everything [collect_files] adds is a
    regular file once symbolic links are followed: no directory, no device
    and no missing object reaches [print_file] through the file list. *)
Theorem collect_files_only_regular_files :
  forall (root : path) (n : node),
    Forall (fun f => status (snd f) = regular) (collect_files root n []).
Proof.
  intros root n. unfold collect_files.
  apply collect_files_rec_regular. constructor.
Qed.

(** Property X14. Nothing below a directory is left out: whatever an entry
    of the directory contributes (itself if it is a regular file, the file
    list of its subtree if it is a directory) is in the file list of the
    directory. *)
Theorem collect_files_complete :
  forall (root : path) (n : node) (files : list located) (e : entry)
         (f : located),
    status n = directory ->
    In e (readdir n) ->
    In f (entry_files root e) ->
    In f (collect_files root n files).
Proof.
  intros root n files e f Hdir He Hf.
  rewrite (collect_files_of_directory root n files Hdir).
  apply in_or_app. right. apply in_flat_map. exists e. split; [|assumption].
  eapply Permutation_in; [apply sort_entries_perm|assumption].
Qed.

Lemma collect_files_complete_witness :
  In ("repo/src/z.cpp", Regular true "int z;")
     (collect_files "repo" repo_listing_1 []).
Proof.
  apply (collect_files_complete "repo" repo_listing_1 []
           ("src", Directory [("z.cpp", Regular true "int z;");
                              ("a.js", Regular true "let a;")])
           ("repo/src/z.cpp", Regular true "int z;")).
  - reflexivity.
  - simpl. right. left. reflexivity.
  - vm_compute. right. left. reflexivity.
Defined.

(** Property X15. [print_structure] adds its text to a buffer that is good,
    leaves a buffer that has failed as it is, and never changes the failure
    state; the text does not depend on what the buffer holds. *)
Theorem print_structure_appends_text :
  forall (o : ostringstream) (root : path) (n : node) (depth : nat),
    print_structure o root n depth =
      (if failed o then o
       else mk_oss (str o ++ str (print_structure oss_empty root n depth))
                   false).
Proof.
  intros o root n depth. now rewrite structure_on_buffer.
Qed.



(** Property X17. The structure text holds names only: it is the same
    whatever the path of the root is. *)
Theorem print_structure_ignores_root_path :
  forall (o : ostringstream) (root root' : path) (n : node) (depth : nat),
    print_structure o root n depth = print_structure o root' n depth.
Proof.
  intros o root root' n depth. unfold print_structure.
  apply print_structure_rec_any_root.
Qed.

(** Property X18. A subdirectory without entries is listed by its name
    followed by [/], with no line beneath it. *)
Theorem empty_subdirectory_line :
  forall (o : ostringstream) (root : path) (depth : nat) (e : entry),
    entry_is_directory e = true ->
    readdir (snd e) = [] ->
    structure_entry print_structure root depth o e =
      put o (spaces (depth * 2) ++ fst e ++ "/" ++ nl).
Proof.
  intros o root depth e Hdir Hempty. unfold structure_entry.
  rewrite Hdir, print_structure_eq, Hempty. simpl.
  rewrite !put_put.
  now destruct (negb (exists_type (status (snd e)))),
               (is_directory_type (status (snd e))).
Qed.

Lemma empty_subdirectory_line_witness :
  structure_entry print_structure "repo" 1 oss_empty ("logs", Directory []) =
    put oss_empty (spaces (1 * 2) ++ fst ("logs", Directory []) ++ "/" ++ nl).
Proof.
  apply (empty_subdirectory_line oss_empty "repo" 1 ("logs", Directory []));
    reflexivity.
Defined.

(** ** What [main] does with its arguments *)

Section Invocation.

Lemma parse_args_first_option (args : list string) :
  forall paths,
    parse_args args paths =
      match first_option args with
      | None => Targets (paths ++ args)%list
      | Some f =>
          if is_help f then ShowHelp
          else if is_version f then ShowVersion
          else UnknownOption f
      end.
Proof.
  unfold first_option.
  induction args as [|arg rest IH]; intros paths; simpl.
  - now rewrite app_nil_r.
  - destruct (starts_with_dash arg) eqn:Hd.
    + destruct (is_help arg); [reflexivity|].
      now destruct (is_version arg).
    + destruct (no_dash_not_flag arg Hd) as [-> ->].
      rewrite IH. destruct (find starts_with_dash rest); [reflexivity|].
      now rewrite <- app_assoc.
Qed.

Lemma no_option_all_positional (args : list string) :
  first_option args = None ->
  forall p, In p args -> starts_with_dash p = false.
Proof. intros H p Hp. exact (find_none _ _ H p Hp). Qed.

Lemma main_without_options (w : world) (args : list string) :
  first_option args = None ->
  main w args =
    mk_outcome (str (out (process_targets w (default_targets args) fresh)))
               (cerr (process_targets w (default_targets args) fresh)) 0.
Proof.
  intros Hnone. unfold main.
  rewrite parse_args_first_option, Hnone. reflexivity.
Qed.

Lemma cerr_process_targets (w : world) (paths : list string) :
  forall s,
    cerr (process_targets w paths s) =
      cerr s ++ join (map (fun p => cerr (process_target w fresh p)) paths).
Proof.
  unfold process_targets.
  induction paths as [|p paths IH]; intros s; simpl.
  - now rewrite app_nil_r_s.
  - rewrite IH.
    destruct (segment_process_target w p s) as [_ ->].
    now rewrite app_assoc_s.
Qed.

Lemma failed_process_target (w : world) (p : string) :
  failed (out (process_target w fresh p)) = target_has_empty_file w p.
Proof.
  unfold process_target, target_has_empty_file.
  destruct (lookup w p) as [n|]; [|reflexivity].
  destruct (negb (pexists n)); [reflexivity|].
  destruct (is_dir n).
  - rewrite out_print_dir_fresh. unfold oss_cat. cbn [failed].
    apply failed_files_section.
  - destruct (is_file n); [|reflexivity].
    destruct (segment_print_file p n
                (fresh << ("## File Contents" ++ nl ++ nl))) as [-> _].
    rewrite failed_resume, failed_render. reflexivity.
Qed.

Lemma failed_process_targets (w : world) (paths : list string) :
  forall s,
    failed (out (process_targets w paths s)) =
      failed (out s) || existsb (target_has_empty_file w) paths.
Proof.
  unfold process_targets.
  induction paths as [|p paths IH]; intros s; simpl.
  - now rewrite orb_false_r.
  - rewrite IH.
    destruct (segment_process_target w p s) as [-> _].
    rewrite failed_resume, failed_process_target. now rewrite orb_assoc.
Qed.

Lemma out_process_targets_good (w : world) (paths : list string) :
  forall s,
    failed (out s) = false ->
    (forall p, In p paths -> target_has_empty_file w p = false) ->
    out (process_targets w paths s) =
      mk_oss (str (out s)
                ++ join (map (fun p => str (out (process_target w fresh p)))
                             paths))
             false.
Proof.
  unfold process_targets.
  induction paths as [|p paths IH]; intros s Hgood Hall; simpl.
  - rewrite app_nil_r_s, <- Hgood. now rewrite oss_eta.
  - assert (Hout : out (process_target w s p) =
                     mk_oss (str (out s) ++ str (out (process_target w fresh p)))
                            false).
    { destruct (segment_process_target w p s) as [-> _].
      rewrite resume_good by assumption. unfold oss_cat.
      rewrite failed_process_target. now rewrite Hall by now left. }
    rewrite IH; [|now rewrite Hout|intros q Hq; apply Hall; now right].
    rewrite Hout. simpl. now rewrite app_assoc_s.
Qed.

Lemma main_one_target (w : world) (p : string) :
  starts_with_dash p = false ->
  main w [p] =
    mk_outcome (str (out (process_target w fresh p)))
               (cerr (process_target w fresh p)) 0.
Proof.
  intros H. unfold main.
  now rewrite parse_args_cons_positional by assumption.
Qed.

Lemma default_targets_nonempty (paths : list string) :
  paths <> [] -> default_targets paths = paths.
Proof. destruct paths; [congruence|reflexivity]. Qed.

End Invocation.


(** Property X20. The exit status is 1 exactly when the first argument
    that starts with [-] is an unknown option, and it is 0 when that
    argument is a help or version flag, whatever the other arguments
    and the file system are. *)
Theorem exit_code_of_main :
  forall (w : world) (args : list string),
    (exit_code (main w args) = 1 <->
     exists u, first_option args = Some u /\ is_unknown_option u = true)
    /\ (forall f, first_option args = Some f ->
                  is_help f || is_version f = true ->
                  exit_code (main w args) = 0).
Proof.
  intros w args. unfold main. rewrite parse_args_first_option.
  unfold is_unknown_option.
  destruct (first_option args) as [f|] eqn:Hfirst.
  - assert (Hd : starts_with_dash f = true).
    { unfold first_option in Hfirst. now apply find_some in Hfirst. }
    destruct (is_help f) eqn:Hh; [|destruct (is_version f) eqn:Hv]; simpl.
    + split; [|reflexivity]. split; [discriminate|].
      intros (u & Hu & Hunk). injection Hu as <-.
      now rewrite Hh in Hunk.
    + split; [|reflexivity]. split; [discriminate|].
      intros (u & Hu & Hunk). injection Hu as <-.
      now rewrite Hh, Hv in Hunk.
    + split.
      * split; [|reflexivity]. intros _. exists f. now rewrite Hh, Hv, Hd.
      * intros g Hg Hflag. injection Hg as <-.
        rewrite Hh, Hv in Hflag. discriminate.
  - simpl. split; [|discriminate]. split; [discriminate|].
    intros (u & Hu & _). discriminate.
Qed.

(** Property X21. As soon as one argument starts with [-], the outcome does
    not depend on the file system: no target is looked up, whatever paths
    stand before or after the option. *)
Theorem options_leave_file_system_alone :
  forall (w w' : world) (args : list string),
    first_option args <> None ->
    main w args = main w' args.
Proof.
  intros w w' args Hsome. unfold main. rewrite parse_args_first_option.
  destruct (first_option args) as [f|]; [|congruence].
  destruct (is_help f); [reflexivity|]. now destruct (is_version f).
Qed.

Lemma options_leave_file_system_alone_witness :
  main run_1 ["repo"; "--verbose"] = main empty_world ["repo"; "--verbose"].
Proof.
  apply (options_leave_file_system_alone run_1 empty_world
           ["repo"; "--verbose"]).
  discriminate.
Defined.

(** Property X22. With several targets and no option, the error stream holds
    what each target alone would have put there, in the order of the
    arguments. *)
Theorem diagnostics_of_targets_concatenate :
  forall (w : world) (paths : list string),
    first_option paths = None ->
    paths <> [] ->
    stderr (main w paths) = join (map (fun p => stderr (main w [p])) paths).
Proof.
  intros w paths Hnone Hne.
  rewrite (main_without_options w paths Hnone).
  rewrite (default_targets_nonempty paths Hne). cbn [stderr].
  rewrite cerr_process_targets.
  change (cerr fresh ++ ?t) with t.
  apply f_equal. apply map_ext_in. intros p Hp.
  rewrite (main_one_target w p (no_option_all_positional paths Hnone p Hp)).
  reflexivity.
Qed.

Lemma diagnostics_of_targets_concatenate_witness :
  stderr (main mixed_world ["gone"; "secret.key"; "box"]) =
    join (map (fun p => stderr (main mixed_world [p]))
              ["gone"; "secret.key"; "box"]).
Proof.
  apply (diagnostics_of_targets_concatenate mixed_world
           ["gone"; "secret.key"; "box"]).
  - reflexivity.
  - discriminate.
Defined.

(** Property X23. With several targets and no option, standard output holds
    the reports of the targets one after the other, each as if it were the
    only target, provided that no target holds an empty file that can be
    opened. *)
Theorem reports_of_targets_concatenate :
  forall (w : world) (paths : list string),
    first_option paths = None ->
    paths <> [] ->
    (forall p, In p paths -> target_has_empty_file w p = false) ->
    stdout (main w paths) = join (map (fun p => stdout (main w [p])) paths).
Proof.
  intros w paths Hnone Hne Hall.
  rewrite (main_without_options w paths Hnone).
  rewrite (default_targets_nonempty paths Hne). cbn [stdout].
  rewrite (out_process_targets_good w paths fresh eq_refl Hall).
  cbn [str].
  change (str (out fresh) ++ ?t) with t.
  apply f_equal. apply map_ext_in. intros p Hp.
  rewrite (main_one_target w p (no_option_all_positional paths Hnone p Hp)).
  reflexivity.
Qed.

Lemma reports_of_targets_concatenate_witness :
  stdout (main mixed_world ["notes.md"; "gone"; "secret.key"]) =
    join (map (fun p => stdout (main mixed_world [p]))
              ["notes.md"; "gone"; "secret.key"]).
Proof.
  apply (reports_of_targets_concatenate mixed_world
           ["notes.md"; "gone"; "secret.key"]).
  - reflexivity.
  - discriminate.
  - intros p [<-|[<-|[<-|[]]]]; reflexivity.
Defined.

(** Property X24. Once a target has held an empty file that can be opened,
    the targets after it add nothing to standard output: the report is the
    one of the targets up to that one. *)
Theorem report_ends_at_empty_file :
  forall (w : world) (pre post : list string),
    first_option (pre ++ post)%list = None ->
    existsb (target_has_empty_file w) pre = true ->
    stdout (main w (pre ++ post)%list) = stdout (main w pre).
Proof.
  intros w pre post Hnone Hempty.
  assert (Hpre : pre <> []) by (destruct pre; [discriminate|congruence]).
  assert (Hnone' : first_option pre = None).
  { unfold first_option in *. destruct (find starts_with_dash pre) eqn:Hf;
      [|reflexivity].
    apply find_some in Hf as [Hin Hd].
    pose proof (find_none _ _ Hnone s (in_or_app _ _ _ (or_introl Hin))).
    congruence. }
  rewrite (main_without_options w _ Hnone), (main_without_options w _ Hnone').
  assert (Hall : (pre ++ post)%list <> [])
    by (destruct pre; [congruence|discriminate]).
  rewrite (default_targets_nonempty _ Hall), (default_targets_nonempty _ Hpre).
  cbn [stdout]. unfold process_targets. rewrite fold_left_app.
  fold (process_targets w pre fresh).
  fold (process_targets w post (process_targets w pre fresh)).
  destruct (segment_process_targets w post (process_targets w pre fresh))
    as [-> _].
  rewrite resume_failed; [reflexivity|].
  rewrite failed_process_targets. now rewrite Hempty.
Qed.

Lemma report_ends_at_empty_file_witness :
  stdout (main mixed_world (["box"] ++ ["notes.md"])%list) =
    stdout (main mixed_world ["box"]).
Proof.
  apply (report_ends_at_empty_file mixed_world ["box"] ["notes.md"]);
    reflexivity.
Defined.

(** Property X25. When every target names nothing, standard output is empty,
    the error stream holds one diagnostic per target in the order of the
    arguments, and the status is 0. *)
Theorem missing_targets_leave_only_diagnostics :
  forall (w : world) (paths : list string),
    first_option paths = None ->
    paths <> [] ->
    (forall p, In p paths -> exists_type (path_status (lookup w p)) = false) ->
    main w paths =
      mk_outcome EmptyString
        (join (map (fun p => p ++ "is not a valid directory or file" ++ nl)
                   paths))
        0.
Proof.
  intros w paths Hnone Hne Hmissing.
  rewrite (main_without_options w paths Hnone).
  rewrite (default_targets_nonempty paths Hne).
  assert (Hloop : forall l s,
             (forall p, In p l ->
                        exists_type (path_status (lookup w p)) = false) ->
             process_targets w l s =
               mk_streams (out s) (cerr s ++ join (map not_valid_text l))).
  { unfold process_targets.
    induction l as [|p l IH]; intros s Hl; simpl.
    - rewrite app_nil_r_s. now destruct s.
    - assert (Hp : process_target w s p = s <<! not_valid_text p).
      { unfold process_target, pexists.
        pose proof (Hl p (or_introl eq_refl)) as Hmiss.
        destruct (lookup w p) as [n|]; [|reflexivity].
        simpl in Hmiss. now rewrite Hmiss. }
      rewrite Hp, IH by (intros q Hq; apply Hl; now right).
      unfold to_cerr. cbn [out cerr]. now rewrite app_assoc_s. }
  rewrite (Hloop paths fresh Hmissing). reflexivity.
Qed.

Lemma missing_targets_leave_only_diagnostics_witness :
  main empty_world ["a"; "b/c"] =
    mk_outcome EmptyString
      (join (map (fun p => p ++ "is not a valid directory or file" ++ nl)
                 ["a"; "b/c"]))
      0.
Proof.
  apply (missing_targets_leave_only_diagnostics empty_world ["a"; "b/c"]).
  - reflexivity.
  - discriminate.
  - intros p _. reflexivity.
Defined.

(** Property X26. A target that is a regular file gets a report made of the
    heading of the file-contents section and of the file itself; none of the
    parts of a directory report is written. *)
Theorem single_file_report :
  forall (w : world) (p : string) (f : node) (c : string),
    starts_with_dash p = false ->
    lookup w p = Some f ->
    status f = regular ->
    open_read f = Some c ->
    c <> EmptyString ->
    (N.of_nat (String.length c) <= kMaxBytes)%N ->
    main w [p] =
      mk_outcome
        ("## File Contents" ++ nl ++ nl
         ++ "### File: " ++ p ++ nl ++ open_fence (extension p)
         ++ c ++ nl ++ fence ++ nl ++ nl)
        EmptyString 0.
Proof.
  intros w p f c Hp Hlookup Hreg Hopen Hne Hsz.
  rewrite (main_one_target w p Hp).
  unfold process_target, pexists, is_dir, is_file.
  rewrite Hlookup, Hreg. cbn [exists_type negb is_directory_type
                               is_regular_type].
  unfold print_file, to_out. rewrite Hopen, (open_read_size f c Hopen).
  apply N.leb_le in Hsz. rewrite Hsz. cbn [out cerr fresh].
  rewrite put_rdbuf_nonempty by assumption.
  rewrite !put_put. unfold put, oss_empty. cbn [failed str].
  f_equal; cbn [append]; now rewrite ?app_assoc_s.
Qed.

Lemma single_file_report_witness :
  main mixed_world ["notes.md"] =
    mk_outcome
      ("## File Contents" ++ nl ++ nl
       ++ "### File: " ++ "notes.md" ++ nl ++ open_fence (extension "notes.md")
       ++ "hello" ++ nl ++ fence ++ nl ++ nl)
      EmptyString 0.
Proof.
  apply (single_file_report mixed_world "notes.md" (Regular true "hello")
           "hello").
  - reflexivity.
  - reflexivity.
  - reflexivity.
  - reflexivity.
  - discriminate.
  - vm_compute. discriminate.
Defined.

(** ** The order of a listing and the tag of a file *)

Section ListingAndTag.

Lemma no_separator_app (a b : string) :
  no_separator a = true -> no_separator b = true ->
  no_separator (a ++ b) = true.
Proof.
  induction a as [|c a IH]; simpl; [auto|].
  intros Ha Hb. apply andb_prop in Ha as [Hc Ha].
  now rewrite Hc, IH.
Qed.

Lemma last_dot_from_no_dot (t : string) :
  forall cur, no_dot t = true -> last_dot_from cur t = cur.
Proof.
  induction t as [|c t IH]; intros cur; simpl; [reflexivity|].
  destruct (Ascii.eqb c "."%char); [discriminate|]. apply IH.
Qed.

Lemma last_dot_from_last (a e : string) :
  forall cur,
    no_dot e = true ->
    last_dot_from cur (a ++ String "."%char e) = Some (String "."%char e).
Proof.
  induction a as [|c a IH]; intros cur He; simpl.
  - now apply last_dot_from_no_dot.
  - destruct (Ascii.eqb c "."%char); now apply IH.
Qed.

Lemma eqb_app_cons_empty (a b : string) (x : ascii) :
  (a ++ String x b =? EmptyString) = false.
Proof. now destruct a. Qed.

Lemma extension_of_entry (root : path) (stem e : string) :
  stem <> EmptyString -> no_separator stem = true ->
  e <> EmptyString -> no_separator e = true -> no_dot e = true ->
  extension (Path.append root (stem ++ String "."%char e)) =
    String "."%char e.
Proof.
  intros Hstem Hsep He Hsep' Hdot. unfold extension.
  rewrite filename_append_name
    by (apply no_separator_app; [assumption|simpl; exact Hsep']).
  destruct stem as [|c r]; [congruence|]. simpl.
  rewrite eqb_app_cons_empty, last_dot_from_last by assumption.
  assert (Hdd : (r ++ String "."%char e =? ".") = false).
  { destruct r as [|c' r']; simpl.
    - destruct e; [congruence|reflexivity].
    - rewrite eqb_app_cons_empty.
      now destruct (Ascii.eqb c' "."%char). }
  rewrite Hdd. now destruct (Ascii.eqb c "."%char).
Qed.

Lemma extension_of_dot_file (root : path) (e : string) :
  no_separator e = true -> no_dot e = true ->
  extension (Path.append root (String "."%char e)) = EmptyString.
Proof.
  intros Hsep Hdot. unfold extension.
  rewrite filename_append_name by (simpl; exact Hsep).
  simpl. rewrite (last_dot_from_no_dot e None Hdot).
  now destruct (e =? EmptyString), (e =? ".").
Qed.

End ListingAndTag.

(** Property X27. The tag of the opening fence is chosen by the text after
    the last period of the file name alone, compared as it is written:
    [json], [js] (tag [javascript]), [cpp] and [hpp] (tag [cpp]); any other
    extension gives a fence without tag. *)
Theorem fence_tag_of_file :
  forall (root : path) (stem e : string),
    stem <> EmptyString -> no_separator stem = true ->
    e <> EmptyString -> no_separator e = true -> no_dot e = true ->
    open_fence (extension (Path.append root (stem ++ String "."%char e))) =
      (if e =? "json" then fence ++ "json" ++ nl
       else if e =? "js" then fence ++ "javascript" ++ nl
       else if (e =? "cpp") || (e =? "hpp") then fence ++ "cpp" ++ nl
       else fence ++ nl).
Proof.
  intros root stem e Hstem Hsep He Hsep' Hdot.
  rewrite (extension_of_entry root stem e Hstem Hsep He Hsep' Hdot).
  unfold open_fence. simpl. reflexivity.
Qed.

Lemma fence_tag_of_file_witness :
  open_fence (extension (Path.append "src" ("main.test" ++ String "."%char "hpp")))
  = (if "hpp" =? "json" then fence ++ "json" ++ nl
     else if "hpp" =? "js" then fence ++ "javascript" ++ nl
     else if ("hpp" =? "cpp") || ("hpp" =? "hpp") then fence ++ "cpp" ++ nl
     else fence ++ nl).
Proof.
  apply (fence_tag_of_file "src" "main.test" "hpp");
    solve [reflexivity | discriminate].
Defined.

(** Property X28. A file whose name is a period followed by a text without
    period (such as [.json] or [.gitignore]) has no extension, and its fence
    has no tag. *)
Theorem dot_file_is_untagged :
  forall (root : path) (e : string),
    no_separator e = true -> no_dot e = true ->
    open_fence (extension (Path.append root (String "."%char e))) =
      fence ++ nl.
Proof.
  intros root e Hsep Hdot.
  now rewrite (extension_of_dot_file root e Hsep Hdot).
Qed.

Lemma dot_file_is_untagged_witness :
  open_fence (extension (Path.append "repo" (String "."%char "json"))) =
    fence ++ nl.
Proof.
  apply (dot_file_is_untagged "repo" "json"); reflexivity.
Defined.

(** Property X29. The sorted listing of a directory depends on its entries
    only, not on the order in which the file system enumerates them, the
    names in one directory being pairwise different. *)
Theorem sorted_listing_ignores_enumeration_order :
  forall (l l' : list entry),
    Permutation l l' ->
    NoDup (map fst l) ->
    sort_entries l = sort_entries l'.
Proof.
  intros l l' Hperm Hnd.
  apply sorted_listing_unique.
  - eapply Permutation_trans;
      [apply Permutation_sym, sort_entries_perm|].
    eapply Permutation_trans; [exact Hperm|apply sort_entries_perm].
  - apply (Permutation_NoDup (l := map fst l)); [|assumption].
    apply Permutation_map, sort_entries_perm.
  - apply sort_entries_sorted.
  - apply sort_entries_sorted.
Qed.

Lemma sorted_listing_ignores_enumeration_order_witness :
  sort_entries [("b", Special); ("a", Dangling)] =
    sort_entries [("a", Dangling); ("b", Special)].
Proof.
  apply (sorted_listing_ignores_enumeration_order
           [("b", Special); ("a", Dangling)]
           [("a", Dangling); ("b", Special)]).
  - apply perm_swap.
  - repeat constructor; simpl; intuition discriminate.
Defined.

(** ** The file-contents section after an empty file *)

Section AfterEmptyFile.

Lemma out_print_file_empty (p : path) (s : streams) :
  failed (out s) = false ->
  out (print_file p (Regular true EmptyString) s) =
    mk_oss (str (out s) ++ "### File: " ++ p ++ nl
              ++ open_fence (extension p))
           true.
Proof.
  intros Hgood. unfold print_file, to_out. cbn [open_read file_size].
  change (N.of_nat (String.length EmptyString) <=? kMaxBytes)%N with true.
  cbn [out cerr]. rewrite !put_put.
  rewrite (put_good (out s)) by assumption.
  unfold put_rdbuf. cbn [failed str]. unfold put. cbn [failed].
  now rewrite ?app_assoc_s.
Qed.

Lemma out_print_file_failed (p : path) (f : node) (s : streams) :
  failed (out s) = true -> out (print_file p f s) = out s.
Proof.
  intros Hfailed. destruct (segment_print_file p f s) as [-> _].
  now apply resume_failed.
Qed.

Lemma render_starts_with_header (p : path) (f : node) :
  exists rest,
    str (out (print_file p f fresh)) = "### File: " ++ p ++ nl ++ rest.
Proof.
  assert (Hext : extends (out (fresh << "### File: " << p << nl))
                         (out (print_file p f fresh))).
  { unfold print_file.
    generalize (fresh << "### File: " << p << nl). intros s1.
    destruct (open_read f) as [c|]; unfold to_out, to_cerr; cbn [out cerr].
    - destruct (file_size f <=? kMaxBytes)%N; cbn [out cerr];
        repeat (eapply extends_trans; [|apply extends_put]);
        try (eapply extends_trans; [|apply extends_put_rdbuf]);
        repeat (eapply extends_trans; [|apply extends_put]);
        apply extends_refl.
    - repeat (eapply extends_trans; [|apply extends_put]).
      apply extends_refl. }
  destruct Hext as [rest Hrest]. exists rest.
  rewrite Hrest. unfold to_out, fresh, oss_empty. cbn [out cerr].
  rewrite !put_on_good. cbn [str append]. now rewrite !app_assoc_s.
Qed.

End AfterEmptyFile.

(** When [a.txt] is not an empty file that can be opened, the
    file-contents section of a directory that holds [b.txt] and [a.txt]
    lists [a.txt] and then [b.txt]. *)
Lemma file_contents_list_a_before_b :
  forall (cwd root : path) (ra rb : bool) (ca cb : string) (s : streams),
    failed (out s) = false ->
    empty_readable (Regular ra ca) = false ->
    exists rest_a rest_b,
      str (out (print_dir cwd root
                  (Directory [("b.txt", Regular rb cb);
                              ("a.txt", Regular ra ca)]) s)) =
        str (out s)
        ++ report_head cwd root
             (Directory [("b.txt", Regular rb cb); ("a.txt", Regular ra ca)])
        ++ "## File Contents" ++ nl ++ nl
        ++ "### File: " ++ Path.append root "a.txt" ++ nl ++ rest_a
        ++ "### File: " ++ Path.append root "b.txt" ++ nl ++ rest_b.
Proof.
  intros cwd root ra rb ca cb s Hgood Ha.
  set (d := Directory [("b.txt", Regular rb cb); ("a.txt", Regular ra ca)]).
  set (pa := Path.append root "a.txt"). set (pb := Path.append root "b.txt").
  assert (Hfiles : collect_files root d [] =
                     [(pa, Regular ra ca); (pb, Regular rb cb)]).
  { unfold d. rewrite collect_files_eq. reflexivity. }
  destruct (render_starts_with_header pa (Regular ra ca)) as [rest_a Hra].
  destruct (render_starts_with_header pb (Regular rb cb)) as [rest_b Hrb].
  exists rest_a, rest_b.
  destruct (segment_print_dir cwd root d s) as [-> _].
  rewrite out_print_dir_fresh, Hfiles, resume_good by assumption.
  unfold oss_cat, files_section, print_files. cbn [str failed fold_left fst snd].
  destruct (segment_print_file pb (Regular rb cb)
              (print_file pa (Regular ra ca)
                 (fresh << ("## File Contents" ++ nl ++ nl)))) as [-> _].
  destruct (segment_print_file pa (Regular ra ca)
              (fresh << ("## File Contents" ++ nl ++ nl))) as [-> _].
  rewrite (resume_good (out (fresh << ("## File Contents" ++ nl ++ nl))))
    by reflexivity.
  rewrite resume_good
    by (unfold oss_cat; cbn [failed]; now rewrite failed_render).
  unfold oss_cat. cbn [str out to_out fresh oss_empty put failed].
  rewrite Hra, Hrb. cbn [append]. now rewrite !app_assoc_s.
Qed.

(** Claim C2.  The entries of every directory are sorted by name before
    the recursion, and for a directory that holds [b.txt] and [a.txt]
    the structure block has [a.txt] before [b.txt]
    ([entries_sorted_before_recursion]); so has the file-contents
    section when [a.txt] is not an empty file that can be opened
    ([file_contents_list_a_before_b]).  When [a.txt] is such a file the
    code departs from the statement: the report buffer fails while
    [a.txt] is written, and [b.txt] is never listed in the file-contents
    section. *)
Theorem empty_a_txt_hides_b_txt :
  (forall (cwd root : path) (rb : bool) (cb : string),
      out (print_dir cwd root
             (Directory [("b.txt", Regular rb cb);
                         ("a.txt", Regular true EmptyString)]) fresh) =
        mk_oss
          ("# Repository Context" ++ nl ++ nl
           ++ "## File System Location" ++ nl ++ nl
           ++ generic_string (absolute cwd root) ++ nl ++ nl
           ++ "Not a git repository" ++ nl ++ nl
           ++ "## Structure" ++ nl ++ fence ++ nl
           ++ "a.txt" ++ nl ++ "b.txt" ++ nl ++ fence ++ nl ++ nl
           ++ "## File Contents" ++ nl ++ nl
           ++ "### File: " ++ Path.append root "a.txt" ++ nl ++ fence ++ nl)
          true)
  /\ contains "### File: repo/a.txt" (stdout (main touched_world ["repo"]))
     = true
  /\ contains "### File: repo/b.txt" (stdout (main touched_world ["repo"]))
     = false.
Proof.
  split; [|split; reflexivity].
  intros cwd root rb cb.
  set (d := Directory [("b.txt", Regular rb cb);
                       ("a.txt", Regular true EmptyString)]).
  set (pa := Path.append root "a.txt"). set (pb := Path.append root "b.txt").
  assert (Hfiles : collect_files root d [] =
                     [(pa, Regular true EmptyString); (pb, Regular rb cb)]).
  { unfold d. rewrite collect_files_eq. reflexivity. }
  assert (Hext : extension pa = ".txt").
  { apply (extension_of_entry root "a" "txt"); solve [reflexivity|discriminate]. }
  rewrite out_print_dir_fresh, Hfiles.
  unfold files_section, print_files. cbn [fold_left fst snd].
  rewrite out_print_file_failed
    by (rewrite out_print_file_empty; reflexivity).
  rewrite out_print_file_empty by reflexivity.
  rewrite Hext. unfold oss_cat, report_head, location_text. cbn [str failed].
  f_equal. unfold structure_text, vcs_text. cbn. now rewrite !app_assoc_s.
Qed.
